(** * CRUD + pgvector + Ollama service: a shallow embedding of [main.py]

    The service keeps two tables in one PostgreSQL database: [items] (plain
    CRUD) and [documents] (text with a 768-dimensional embedding).  Every
    endpoint opens its own SQLAlchemy session, talks to the embedding
    provider and to the database, and returns a JSON value.

    The database is modelled as explicit state, the session as a list of
    pending changes that [commit] flushes in one transaction, exceptions as
    the left summand of the endpoint's outcome.  The collaborators that are
    not code of this repository (the embedding model, the distance operator
    of pgvector, the sort the database runs for ORDER BY) are parameters of
    the endpoints.  [main_previous.py] differs from [main.py] only in how the
    database URL is built; its endpoints are the same text. *)

From Stdlib Require Import List ZArith QArith String Ascii Bool Lia.
From Stdlib Require Import Permutation Sorted Lqa.
Import ListNotations.
Local Open Scope Z_scope.

Set Implicit Arguments.

(* ================================================================== *)
(** ** Data model *)
(* ================================================================== *)

(** A vector as the client hands it to pgvector: a list of finite numbers. *)
Definition vector := list Q.

(** [Vector(768)]: the dimension the [embedding] column is declared with. *)
Definition EMBEDDING_DIM : nat := 768.

(** [String(100)]: the length the [name] column is declared with. *)
Definition NAME_MAX : nat := 100.

(** [class Item(Base)]: every column but the primary key is nullable. *)
Record Item := mkItem {
  item_id : Z;
  item_name : option string;
  item_description : option string
}.

(** [class Document(Base)]. *)
Record Document := mkDocument {
  doc_id : Z;
  doc_content : option string;
  doc_embedding : option vector
}.

(** Request schemas ([pydantic] models). *)
Record ItemCreate := mkItemCreate { name : string; description : string }.
Record DocCreate := mkDocCreate { content : string }.
Record SearchQuery := mkSearchQuery { query : string }.

(** The database: each table as its rows in physical order, and the last
    value handed out by the sequence behind each [id] column. *)
Record Database := mkDatabase {
  items : list Item;
  items_seq : Z;
  documents : list Document;
  documents_seq : Z
}.

(** What an endpoint does to the outside, in the order it does it. *)
Inductive Event :=
| SessionOpened
| EmbedCalled (text : string)
| Committed
| SessionClosed.

Record World := mkWorld { db : Database; trace : list Event }.

(** The exceptions an endpoint can end with.  The code names none of them:
    they are what the collaborators raise. *)
Inductive Exn :=
| EmbeddingUnavailable                       (* [embed_query] raised *)
| DimensionMismatch (expected actual : nat)  (* the [Vector(768)] bind check *)
| ValueTooLong (limit : nat)                 (* varchar(100) overflow *)
| ObjectGone                                 (* [refresh] found no row *)
| NullDistance                               (* [float(None)] *)
| NulCharacter                               (* a string parameter holds NUL *)
| Float4OutOfRange                           (* a component no float4 can hold *)
| IdOutOfRange.                              (* the int4 sequence is used up *)

(** After startup: both tables exist and are empty. *)
Definition empty_db : Database := mkDatabase [] 0 [] 0.
Definition initial_world : World := mkWorld empty_db [].

(* ================================================================== *)
(** ** The endpoint monad: state and exceptions *)
(* ================================================================== *)

Definition M (A : Type) : Type := World -> (Exn + A) * World.

Definition ret {A} (a : A) : M A := fun w => (inr a, w).

Definition raise {A} (e : Exn) : M A := fun w => (inl e, w).

Definition bind {A B} (m : M A) (k : A -> M B) : M B :=
  fun w =>
    match m w with
    | (inl e, w') => (inl e, w')
    | (inr a, w') => k a w'
    end.

Declare Scope endpoint_scope.
Delimit Scope endpoint_scope with endpoint.
Notation "x <- m ;; k" := (bind m (fun x => k))
  (at level 61, m at next level, right associativity) : endpoint_scope.
Notation "m ;; k" := (bind m (fun _ => k))
  (at level 61, right associativity) : endpoint_scope.
Local Open Scope endpoint_scope.

Definition emit (e : Event) : M unit :=
  fun w => (inr tt, mkWorld (db w) (trace w ++ [e])).

Definition read_db : M Database := fun w => (inr (db w), w).

Definition write_db (d : Database) : M unit :=
  fun w => (inr tt, mkWorld d (trace w)).

(* ================================================================== *)
(** ** Column types *)
(* ================================================================== *)

(** The bind processor of [Vector(dim)]: a value of another length is
    refused before anything reaches the table. *)
Definition bind_vector (dim : nat) (v : vector) : Exn + vector :=
  if Nat.eqb (List.length v) dim then inr v
  else inl (DimensionMismatch dim (List.length v)).

(** The database driver refuses a string parameter that holds the
    character NUL. *)
Fixpoint has_nul (s : string) : bool :=
  match s with
  | EmptyString => false
  | String c s' => Ascii.eqb c zero || has_nul s'
  end.

Definition bind_string (s : string) : Exn + string :=
  if has_nul s then inl NulCharacter else inr s.

(** The largest value of an [Integer] column and of its sequence. *)
Definition INT4_MAX : Z := 2147483647.

(** The components of a stored vector are float4: a number is rounded to
    the nearest one, ties to the even mantissa, and refused when that is
    beyond the largest finite float4.  [floor_log2 n d] is the exponent [e]
    with [2^e <= n/d < 2^(e+1)]. *)
Definition floor_log2 (n d : positive) : Z :=
  let e0 := Z.log2 (Zpos n) - Z.log2 (Zpos d) in
  let below :=
    if 0 <=? e0 then Zpos d * 2 ^ e0 <=? Zpos n
    else Zpos d <=? Zpos n * 2 ^ (- e0) in
  if below then e0 else e0 - 1.

Definition round_half_even (n d : Z) : Z :=
  let q := n / d in
  match 2 * (n mod d) ?= d with
  | Lt => q
  | Gt => q + 1
  | Eq => if Z.even q then q else q + 1
  end.

Definition to_float4_pos (n d : positive) : option Q :=
  let e := floor_log2 n d in
  let qe := Z.max e (-126) - 23 in
  if 0 <=? qe then
    let m := round_half_even (Zpos n) (Zpos d * 2 ^ qe) in
    if 2 ^ 128 <=? m * 2 ^ qe then None else Some (inject_Z (m * 2 ^ qe))
  else
    let m := round_half_even (Zpos n * 2 ^ (- qe)) (Zpos d) in
    Some (Qred (Qmake m (Z.to_pos (2 ^ (- qe))))).

Definition to_float4 (x : Q) : option Q :=
  match Qnum x with
  | 0 => Some 0%Q
  | Zpos n => to_float4_pos n (Qden x)
  | Zneg n => option_map Qopp (to_float4_pos n (Qden x))
  end.

Fixpoint to_float4_vector (v : vector) : option vector :=
  match v with
  | [] => Some []
  | x :: v' =>
      match to_float4 x, to_float4_vector v' with
      | Some y, Some w => Some (y :: w)
      | _, _ => None
      end
  end.

(** The number as a float4, where there is one; used where the server
    reads a query. *)
Definition float4_round (x : Q) : Q :=
  match to_float4 x with
  | Some y => y
  | None => x
  end.

Fixpoint take (n : nat) (s : string) : string :=
  match n, s with
  | O, _ => EmptyString
  | S _, EmptyString => EmptyString
  | S n', String c s' => String c (take n' s')
  end.

Fixpoint drop (n : nat) (s : string) : string :=
  match n, s with
  | O, _ => s
  | S _, EmptyString => EmptyString
  | S n', String _ s' => drop n' s'
  end.

Fixpoint all_spaces (s : string) : bool :=
  match s with
  | EmptyString => true
  | String c s' => Ascii.eqb c " "%char && all_spaces s'
  end.

(** varchar(n) on INSERT: a longer value is an error unless the excess is
    spaces, which are cut off. *)
Definition bind_varchar (n : nat) (s : string) : Exn + string :=
  if Nat.leb (String.length s) n then inr s
  else if all_spaces (drop n s) then inr (take n s)
  else inl (ValueTooLong n).

(* ================================================================== *)
(** ** The session *)
(* ================================================================== *)

(** What a session has been told and not yet flushed. *)
Inductive Pending :=
| NewItem (nm descr : option string)
| NewDocument (cont : option string) (emb : option vector)
| DeletedItem (id : Z).

Definition Session := list Pending.

(** [SessionLocal()] *)
Definition SessionLocal : M Session :=
  emit SessionOpened ;; ret (@nil Pending).

(** [db.add(obj)] and [db.delete(obj)] only mark the object. *)
Definition session_add (s : Session) (p : Pending) : Session := s ++ [p].

(** A string parameter of the [name] column: the driver's check, then the
    column's. *)
Definition opt_bind_varchar (n : nat) (o : option string) : Exn + option string :=
  match o with
  | None => inr None
  | Some s =>
      match bind_string s with
      | inl e => inl e
      | inr s1 =>
          match bind_varchar n s1 with
          | inl e => inl e
          | inr s' => inr (Some s')
          end
      end
  end.

(** A string parameter of a [Text] column. *)
Definition opt_bind_text (o : option string) : Exn + option string :=
  match o with
  | None => inr None
  | Some s =>
      match bind_string s with
      | inl e => inl e
      | inr s' => inr (Some s')
      end
  end.

Definition opt_bind_vector (dim : nat) (o : option vector) : Exn + option vector :=
  match o with
  | None => inr None
  | Some v => match bind_vector dim v with
              | inl e => inl e
              | inr v' => inr (Some v')
              end
  end.

(** What the server makes of a vector it is sent. *)
Definition opt_store_vector (o : option vector) : Exn + option vector :=
  match o with
  | None => inr None
  | Some v => match to_float4_vector v with
              | None => inl Float4OutOfRange
              | Some v' => inr (Some v')
              end
  end.

(** The next value of an id sequence that stands at [last]. *)
Definition nextval (last : Z) : Exn + Z :=
  if last <? INT4_MAX then inr (last + 1) else inl IdOutOfRange.

(** One statement of the flush.  The result carries the primary key the
    statement touched.  The parameters are checked on the client in the
    order SQLAlchemy and the driver process them, then by the server. *)
Definition flush_one (p : Pending) (d : Database) : Exn + (Database * Z) :=
  match p with
  | NewItem nm descr =>
      match opt_bind_text descr with
      | inl e => inl e
      | inr descr' =>
          match opt_bind_varchar NAME_MAX nm with
          | inl e => inl e
          | inr nm' =>
              match nextval (items_seq d) with
              | inl e => inl e
              | inr id =>
                  inr (mkDatabase (items d ++ [mkItem id nm' descr']) id
                                  (documents d) (documents_seq d), id)
              end
          end
      end
  | NewDocument cont emb =>
      match opt_bind_vector EMBEDDING_DIM emb with
      | inl e => inl e
      | inr emb1 =>
          match opt_bind_text cont with
          | inl e => inl e
          | inr cont' =>
              match opt_store_vector emb1 with
              | inl e => inl e
              | inr emb' =>
                  match nextval (documents_seq d) with
                  | inl e => inl e
                  | inr id =>
                      inr (mkDatabase (items d) (items_seq d)
                                      (documents d ++ [mkDocument id cont' emb']) id, id)
                  end
              end
          end
      end
  | DeletedItem id =>
      inr (mkDatabase (filter (fun it => negb (item_id it =? id)) (items d))
                      (items_seq d) (documents d) (documents_seq d), id)
  end.

Fixpoint flush (s : Session) (d : Database) : Exn + (Database * list Z) :=
  match s with
  | [] => inr (d, [])
  | p :: s' =>
      match flush_one p d with
      | inl e => inl e
      | inr (d', id) =>
          match flush s' d' with
          | inl e => inl e
          | inr (d'', ids) => inr (d'', id :: ids)
          end
      end
  end.

(** [db.commit()]: the pending changes become visible together, or the
    transaction is rolled back and the exception leaves the endpoint. *)
Definition commit (s : Session) : M (list Z) :=
  d <- read_db ;;
  match flush s d with
  | inl e => raise e
  | inr (d', ids) => write_db d' ;; emit Committed ;; ret ids
  end.

(** [db.close()] *)
Definition close : M unit := emit SessionClosed.

(* ================================================================== *)
(** ** The collaborators *)
(* ================================================================== *)

Definition total_leb {A} (leb : A -> A -> bool) : Prop :=
  forall x y, leb x y = true \/ leb y x = true.

Definition transitive_leb {A} (leb : A -> A -> bool) : Prop :=
  forall x y z, leb x y = true -> leb y z = true -> leb x z = true.

(** The database server with the pgvector extension, as far as the
    endpoints use it: the type of a distance (float8) with the order
    ORDER BY sorts it in and its value 0, the operator [<=>] applied to a
    stored vector and to the query as the client sends it, and the sort
    itself. *)
Record Postgres := mkPostgres {
  float8 : Type;
  float8_leb : float8 -> float8 -> bool;
  float8_zero : float8;
  cosine_distance : vector -> vector -> float8;
  order_by : forall A : Type, (A -> A -> bool) -> list A -> list A
}.

(** What SQL promises of a server: float8 is totally ordered (NaN
    included), and ORDER BY permutes the rows and leaves them in order.
    Where two rows compare equal it promises nothing. *)
Record lawful (pg : Postgres) : Prop := mkLawful {
  float8_total : total_leb (float8_leb pg);
  float8_trans : transitive_leb (float8_leb pg);
  order_by_perm : forall A (leb : A -> A -> bool) l,
      Permutation (order_by pg leb l) l;
  order_by_sorted : forall A (leb : A -> A -> bool) l,
      total_leb leb -> transitive_leb leb ->
      StronglySorted (fun a b => leb a b = true) (order_by pg leb l)
}.

(** What pgvector promises of [<=>]: a cosine distance is not negative,
    and nothing is closer to a query than the vector the query itself is
    stored as. *)
Record cosine_metric (pg : Postgres) : Prop := mkCosineMetric {
  distance_nonneg : forall a b,
      float8_leb pg (float8_zero pg) (cosine_distance pg a b) = true;
  distance_self_nearest : forall v v' e,
      to_float4_vector v = Some v' ->
      float8_leb pg (cosine_distance pg v' v) (cosine_distance pg e v) = true
}.

(** [OllamaEmbeddings.embed_query]: [None] stands for the call raising. *)
Definition Embedder := string -> option vector.

(* ================================================================== *)
(** ** The endpoints *)
(* ================================================================== *)

(** A returned [dict] of strings.  The messages of the source end in an
    emoji, which is left out here. *)
Definition Dict := list (string * string).

Definition not_found_body : Dict := [("error", "Item not found")]%string.
Definition deleted_body : Dict := [("message", "Item deleted")]%string.

Definition find_item (id : Z) (d : Database) : option Item :=
  find (fun it => item_id it =? id) (items d).

Definition find_document (id : Z) (d : Database) : option Document :=
  find (fun doc => doc_id doc =? id) (documents d).

(** [db.refresh(obj)]: the object is loaded again by its primary key. *)
Definition refresh_item (id : Z) : M Item :=
  d <- read_db ;;
  match find_item id d with
  | Some it => ret it
  | None => raise ObjectGone
  end.

Definition refresh_document (id : Z) : M Document :=
  d <- read_db ;;
  match find_document id d with
  | Some doc => ret doc
  | None => raise ObjectGone
  end.

Definition the_id (ids : list Z) : Z := hd 0 ids.

(** [POST /items] *)
Definition create_item (item : ItemCreate) : M Item :=
  s <- SessionLocal ;;
  let s := session_add s (NewItem (Some (name item)) (Some (description item))) in
  ids <- commit s ;;
  obj <- refresh_item (the_id ids) ;;
  close ;;
  ret obj.

(** [GET /items] *)
Definition get_items : M (list Item) :=
  _ <- SessionLocal ;;
  d <- read_db ;;
  close ;;
  ret (items d).

(** [DELETE /items/{item_id}].  The not-found branch returns before
    [db.close()]. *)
Definition delete_item (wanted : Z) : M Dict :=
  s <- SessionLocal ;;
  d <- read_db ;;
  match find_item wanted d with
  | None => ret not_found_body
  | Some it =>
      let s := session_add s (DeletedItem (item_id it)) in
      _ <- commit s ;;
      close ;;
      ret deleted_body
  end.

Section VectorEndpoints.

Variable pg : Postgres.
Variable embed_query : Embedder.

Definition call_embed (text : string) : M vector :=
  emit (EmbedCalled text) ;;
  match embed_query text with
  | Some v => ret v
  | None => raise EmbeddingUnavailable
  end.

(** [{"id": d.id, "message": ...}] *)
Record Stored := mkStored { stored_id : Z; stored_message : string }.

(** [POST /vector/add] *)
Definition add_document (doc : DocCreate) : M Stored :=
  s <- SessionLocal ;;
  vector <- call_embed (content doc) ;;
  let s := session_add s (NewDocument (Some (content doc)) (Some vector)) in
  ids <- commit s ;;
  d <- refresh_document (the_id ids) ;;
  close ;;
  ret (mkStored (doc_id d) "Stored with embedding").

(** A row of the search query: the document and the column labelled
    [distance], NULL where the embedding is. *)
Definition Scored : Type := Document * option (float8 pg).

Definition distance_to (q_vector : vector) (doc : Document) : option (float8 pg) :=
  option_map (fun e => cosine_distance pg e q_vector) (doc_embedding doc).

Definition score (q_vector : vector) (doc : Document) : Scored :=
  (doc, distance_to q_vector doc).

(** Ascending order of a nullable float8 column: NULLs last. *)
Definition nulls_last_leb (a b : option (float8 pg)) : bool :=
  match a, b with
  | _, None => true
  | None, Some _ => false
  | Some x, Some y => float8_leb pg x y
  end.

Definition by_distance (r1 r2 : Scored) : bool :=
  nulls_last_leb (snd r1) (snd r2).

Definition limit {A} (n : nat) (l : list A) : list A := firstn n l.

Definition has_embedding (doc : Document) : bool :=
  match doc_embedding doc with
  | Some _ => true
  | None => false
  end.

(** [db.query(Document, distance).order_by("distance").limit(3).all()].
    The query vector goes to the server as it is; the operator raises when
    it meets a stored vector, all of which have the column's 768
    components, and the query has another number of them. *)
Definition ranked_query (q_vector : vector) : M (list Scored) :=
  d <- read_db ;;
  if existsb has_embedding (documents d)
     && negb (Nat.eqb (List.length q_vector) EMBEDDING_DIM)
  then raise (DimensionMismatch EMBEDDING_DIM (List.length q_vector))
  else ret (limit 3 (order_by pg by_distance (map (score q_vector) (documents d)))).

(** One element of the returned list. *)
Record Hit (D : Type) := mkHit {
  hit_id : Z;
  hit_content : option string;
  hit_distance : D
}.

(** [float(distance)] raises on [None]. *)
Definition to_hit (r : Scored) : Exn + Hit (float8 pg) :=
  match snd r with
  | Some dist => inr (mkHit (doc_id (fst r)) (doc_content (fst r)) dist)
  | None => inl NullDistance
  end.

Fixpoint to_hits (rs : list Scored) : Exn + list (Hit (float8 pg)) :=
  match rs with
  | [] => inr []
  | r :: rs' =>
      match to_hit r with
      | inl e => inl e
      | inr h =>
          match to_hits rs' with
          | inl e => inl e
          | inr hs => inr (h :: hs)
          end
      end
  end.

(** [POST /vector/search] *)
Definition search_document (payload : SearchQuery) : M (list (Hit (float8 pg))) :=
  _ <- SessionLocal ;;
  q_vector <- call_embed (query payload) ;;
  results <- ranked_query q_vector ;;
  close ;;
  match to_hits results with
  | inl e => raise e
  | inr hits => ret hits
  end.

End VectorEndpoints.

(* ================================================================== *)
(** ** The service as a transition system *)
(* ================================================================== *)

Inductive Request :=
| PostItems (item : ItemCreate)
| GetItems
| DeleteItems (wanted : Z)
| PostVectorAdd (doc : DocCreate)
| PostVectorSearch (payload : SearchQuery).

(** The world a request leaves behind, whether it returned or raised. *)
Definition serve (pg : Postgres) (embed_query : Embedder)
           (r : Request) (w : World) : World :=
  match r with
  | PostItems item => snd (create_item item w)
  | GetItems => snd (get_items w)
  | DeleteItems wanted => snd (delete_item wanted w)
  | PostVectorAdd doc => snd (add_document embed_query doc w)
  | PostVectorSearch payload => snd (search_document pg embed_query payload w)
  end.

(** Every world the service can be in: the collaborators may behave
    differently at every request. *)
Inductive reachable : World -> Prop :=
| reachable_initial : reachable initial_world
| reachable_serve : forall pg embed_query r w,
    reachable w -> reachable (serve pg embed_query r w).

(** A stored document has its content and an embedding of the declared
    dimension. *)
Definition paired (d : Document) : bool :=
  match doc_content d, doc_embedding d with
  | Some _, Some v => Nat.eqb (List.length v) EMBEDDING_DIM
  | _, _ => false
  end.

(** Why the insert of a document is refused, if it is: the checks of
    [flush_one] in their order. *)
Definition document_refusal (d : Database) (cont : string) (v : vector) : option Exn :=
  if negb (Nat.eqb (List.length v) EMBEDDING_DIM)
  then Some (DimensionMismatch EMBEDDING_DIM (List.length v))
  else if has_nul cont then Some NulCharacter
  else match to_float4_vector v with
       | None => Some Float4OutOfRange
       | Some _ => if documents_seq d <? INT4_MAX then None else Some IdOutOfRange
       end.

(** Why the insert of an item is refused, if it is. *)
Definition item_refusal (d : Database) (nm descr : string) : option Exn :=
  if has_nul descr then Some NulCharacter
  else if has_nul nm then Some NulCharacter
  else match bind_varchar NAME_MAX nm with
       | inl e => Some e
       | inr _ => if items_seq d <? INT4_MAX then None else Some IdOutOfRange
       end.

(** Whether the search query is refused: there is a stored vector to
    compare with and the query has another dimension. *)
Definition query_refused (d : Database) (q_vector : vector) : bool :=
  existsb has_embedding (documents d)
  && negb (Nat.eqb (List.length q_vector) EMBEDDING_DIM).

(** The database after one complete document row went in. *)
Definition inserted (d : Database) (cont : string) (v : vector) : Database :=
  mkDatabase (items d) (items_seq d)
             (documents d ++ [mkDocument (documents_seq d + 1) (Some cont) (Some v)])
             (documents_seq d + 1).

(** The ranking the search query asks the server for. *)
Definition ranking (pg : Postgres) (q : vector) (docs : list Document) : list (Scored pg) :=
  limit 3 (order_by pg (@by_distance pg) (map (score pg q) docs)).

(** The texts the embedding provider was called with, oldest first. *)
Fixpoint embed_calls (tr : list Event) : list string :=
  match tr with
  | [] => []
  | EmbedCalled text :: tr' => text :: embed_calls tr'
  | _ :: tr' => embed_calls tr'
  end.

Fixpoint commits (tr : list Event) : nat :=
  match tr with
  | [] => O
  | Committed :: tr' => S (commits tr')
  | _ :: tr' => commits tr'
  end.

(** The number of stored documents whose distance to [q] is at most [bound]. *)
Definition within (pg : Postgres) (q : vector) (bound : float8 pg)
           (docs : list Document) : nat :=
  List.length (filter (fun d => nulls_last_leb pg (distance_to pg q d) (Some bound)) docs).

(** What a hit tells, and what a stored document would tell. *)
Definition hit_triple (D : Type) (h : Hit D) : Z * option string * option D :=
  (hit_id h, hit_content h, Some (hit_distance h)).

Definition doc_triple (pg : Postgres) (q : vector) (d : Document)
  : Z * option string * option (float8 pg) :=
  (doc_id d, doc_content d, distance_to pg q d).


(** Hits at the same distance come in ascending order of id. *)
Definition ties_by_ascending_id (pg : Postgres) (hits : list (Hit (float8 pg))) : Prop :=
  forall i j h1 h2,
    (i < j)%nat ->
    nth_error hits i = Some h1 -> nth_error hits j = Some h2 ->
    float8_leb pg (hit_distance h2) (hit_distance h1) = true ->
    hit_id h1 < hit_id h2.

Definition ascending (pg : Postgres) (hits : list (Hit (float8 pg))) : Prop :=
  StronglySorted
    (fun h1 h2 => float8_leb pg (hit_distance h1) (hit_distance h2) = true) hits.

(* ================================================================== *)
(** ** Two servers and an embedding provider to run the service with *)
(* ================================================================== *)

(** Insertion sort, a new row going in front of the rows it equals: rows
    that compare equal keep the order of the table. *)
Fixpoint insert_front {A} (leb : A -> A -> bool) (x : A) (l : list A) : list A :=
  match l with
  | [] => [x]
  | y :: l' => if leb x y then x :: y :: l' else y :: insert_front leb x l'
  end.

Definition sort_keeping_ties {A} (leb : A -> A -> bool) (l : list A) : list A :=
  fold_right (insert_front leb) [] l.

(** Insertion sort, a new row going behind the rows it equals: rows that
    compare equal come out in the reverse of the table's order. *)
Fixpoint insert_behind {A} (leb : A -> A -> bool) (x : A) (l : list A) : list A :=
  match l with
  | [] => [x]
  | y :: l' => if leb y x then y :: insert_behind leb x l' else x :: y :: l'
  end.

Definition sort_reversing_ties {A} (leb : A -> A -> bool) (l : list A) : list A :=
  fold_right (insert_behind leb) [] l.

(** PostgreSQL's own sort of a query with LIMIT [bound] (tuplesort.c): up
    to twice the bound rows are sorted in place, by an insertion sort that
    keeps ties in the order of arrival; from there on it keeps a heap of
    the [bound] smallest rows, its root the largest of them, drops an
    arriving row that is not smaller than the root, and empties the heap at
    the end.  The heap is the array [mem]; [leb] is the order of the query,
    which the heap uses reversed. *)
Fixpoint set_nth {A} (i : nat) (x : A) (mem : list A) : list A :=
  match mem, i with
  | [], _ => []
  | _ :: mem', O => x :: mem'
  | y :: mem', S i' => y :: set_nth i' x mem'
  end.

(** [tuplesort_heap_insert]: the new row climbs while it is larger than its
    parent. *)
Fixpoint sift_up {A} (leb : A -> A -> bool) (fuel : nat) (mem : list A)
         (tuple : A) (j : nat) : list A :=
  match fuel, j with
  | S fuel', S _ =>
      let i := Nat.div (j - 1) 2 in
      match nth_error mem i with
      | Some parent =>
          if leb tuple parent then set_nth j tuple mem
          else sift_up leb fuel' (set_nth j parent mem) tuple i
      | None => set_nth j tuple mem
      end
  | _, _ => set_nth j tuple mem
  end.

Definition heap_insert {A} (leb : A -> A -> bool) (mem : list A) (tuple : A) : list A :=
  sift_up leb (List.length mem) (mem ++ [tuple]) tuple (List.length mem).

(** [tuplesort_heap_replace_top] on the first [n] cells: the row sinks
    while it is smaller than its larger child. *)
Fixpoint sift_down {A} (leb : A -> A -> bool) (fuel : nat) (n : nat) (mem : list A)
         (tuple : A) (i : nat) : list A :=
  match fuel with
  | O => set_nth i tuple mem
  | S fuel' =>
      let j := (2 * i + 1)%nat in
      if Nat.leb n j then set_nth i tuple mem
      else
        let j :=
          match nth_error mem j, nth_error mem (j + 1) with
          | Some l, Some r =>
              if Nat.ltb (j + 1) n && negb (leb r l) then (j + 1)%nat else j
          | _, _ => j
          end in
        match nth_error mem j with
        | Some child =>
            if leb child tuple then set_nth i tuple mem
            else sift_down leb fuel' n (set_nth i child mem) tuple j
        | None => set_nth i tuple mem
        end
  end.

Definition replace_top {A} (leb : A -> A -> bool) (n : nat) (mem : list A)
           (tuple : A) : list A :=
  sift_down leb n n mem tuple 0.

(** One arriving row in the bounded state. *)
Definition bounded_put {A} (leb : A -> A -> bool) (bound : nat) (mem : list A)
           (tuple : A) : list A :=
  if Nat.ltb (List.length mem) bound then heap_insert leb mem tuple
  else
    match mem with
    | [] => mem
    | top :: _ =>
        if leb top tuple then mem
        else replace_top leb (List.length mem) mem tuple
    end.

(** [sort_bounded_heap]: the root goes behind the heap, the last row of
    the heap takes its place and sinks. *)
Fixpoint unwind_heap {A} (leb : A -> A -> bool) (n : nat) (mem : list A) : list A :=
  match n with
  | O => mem
  | S O => mem
  | S n' =>
      match nth_error mem 0, nth_error mem n' with
      | Some top, Some last =>
          unwind_heap leb n' (set_nth n' top (replace_top leb n' mem last))
      | _, _ => mem
      end
  end.

Definition tuplesort_bounded {A} (leb : A -> A -> bool) (bound : nat)
           (l : list A) : list A :=
  let heap := fold_left (bounded_put leb bound) l [] in
  unwind_heap leb (List.length heap) heap.

Definition tuplesort_limit_3 {A} (leb : A -> A -> bool) (l : list A) : list A :=
  if Nat.leb (List.length l) 6 then fold_right (insert_front leb) [] l
  else tuplesort_bounded leb 3 l.

Definition dot (a b : vector) : Q :=
  fold_right Qplus 0%Q (map (fun p => (fst p * snd p)%Q) (combine a b)).

(** A rational stand-in for the cosine distance [1 - cos]: it is
    [1 - sgn(cos) * cos^2], which orders pairs of vectors as [1 - cos] does
    and takes the same values at 0, 1 and 2. *)
Definition rational_cosine_distance (a b0 : vector) : Q :=
  let b := map float4_round b0 in
  let p := dot a b in
  let s := (p * p / (dot a a * dot b b))%Q in
  Qred (if Qle_bool 0 p then 1 - s else 1 + s)%Q.

Definition pg_keeping_ties : Postgres :=
  mkPostgres Qle_bool 0%Q rational_cosine_distance (@sort_keeping_ties).

Definition pg_reversing_ties : Postgres :=
  mkPostgres Qle_bool 0%Q rational_cosine_distance (@sort_reversing_ties).

(** The server with PostgreSQL's sort; its Sort node hands on only the
    rows within the bound. *)
Definition pg_tuplesort : Postgres :=
  mkPostgres Qle_bool 0%Q rational_cosine_distance (@tuplesort_limit_3).

Fixpoint codes (s : string) : list Q :=
  match s with
  | EmptyString => []
  | String c s' => inject_Z (Z.of_nat (nat_of_ascii c)) :: codes s'
  end.

(** A provider that fails on the empty text and otherwise answers with the
    character codes of the text, padded with zeros to 768 components. *)
Definition embed_codes : Embedder :=
  fun text =>
    match text with
    | EmptyString => None
    | _ => Some (firstn EMBEDDING_DIM (codes text ++ repeat 0%Q EMBEDDING_DIM))
    end.

(** A provider of another model: three components. *)
Definition embed_short : Embedder :=
  fun text => Some (firstn 3 (codes text ++ repeat 0%Q 3)).

(** The world after the given texts were added, one request each. *)
Definition after_adding (pg : Postgres) (embed_query : Embedder)
           (texts : list string) : World :=
  fold_left (fun w text => serve pg embed_query (PostVectorAdd (mkDocCreate text)) w)
            texts initial_world.


(** Worlds to run the service in. *)
Definition world_one_item : World :=
  serve pg_keeping_ties embed_codes (PostItems (mkItemCreate "pen" "blue")) initial_world.

Definition world_cats (n : nat) : World :=
  after_adding pg_keeping_ties embed_codes (repeat "cat"%string n).

Definition world_animals : World :=
  after_adding pg_keeping_ties embed_codes ["cat"; "dog"; "cow"]%string.

Definition world_four : World :=
  after_adding pg_keeping_ties embed_codes ["cat"; "dog"; "cow"; "owl"]%string.

(** The hits the searches below come back with. *)
Definition hits_animals : list (Hit Q) :=
  [mkHit 1 (Some "cat"%string) 0%Q;
   mkHit 3 (Some "cow"%string) (145619 # 45585403)%Q;
   mkHit 2 (Some "dog"%string) (2390631 # 215138276)%Q].

Definition hits_cats_heap : list (Hit Q) :=
  [mkHit 2 (Some "cat"%string) 0%Q;
   mkHit 3 (Some "cat"%string) 0%Q;
   mkHit 1 (Some "cat"%string) 0%Q].

Definition hits_cats_kept (n : nat) : list (Hit Q) :=
  map (fun i => mkHit (Z.of_nat i) (Some "cat"%string) 0%Q) (seq 1 n).

(** The database after one item row went in, and after the rows with a
    given primary key went out. *)
Definition item_inserted (d : Database) (nm descr : string) : Database :=
  mkDatabase (items d ++ [mkItem (items_seq d + 1) (Some nm) (Some descr)])
             (items_seq d + 1) (documents d) (documents_seq d).

Definition item_deleted (d : Database) (id : Z) : Database :=
  mkDatabase (filter (fun it => negb (item_id it =? id)) (items d))
             (items_seq d) (documents d) (documents_seq d).

(** Primary keys of [items]: distinct, and all handed out by the sequence. *)
Definition items_keyed (d : Database) : Prop :=
  NoDup (map item_id (items d))
  /\ Forall (fun it => 0 < item_id it <= items_seq d) (items d)
  /\ 0 <= items_seq d.

(** Primary keys of [documents]: 1, 2, ... in the order of the table, the
    sequence standing at the last of them. *)
Definition documents_dense (d : Database) : Prop :=
  map doc_id (documents d) = map Z.of_nat (seq 1 (List.length (documents d)))
  /\ documents_seq d = Z.of_nat (List.length (documents d)).

(** An item as [create_item] writes it: name and description set, the
    name within the column's length. *)
Definition item_complete (it : Item) : bool :=
  match item_name it, item_description it with
  | Some nm, Some _ => Nat.leb (String.length nm) NAME_MAX
  | _, _ => false
  end.

Definition is_items_request (r : Request) : bool :=
  match r with
  | PostItems _ | GetItems | DeleteItems _ => true
  | PostVectorAdd _ | PostVectorSearch _ => false
  end.

(** Sessions opened and sessions closed along a trace. *)
Fixpoint sessions_opened (tr : list Event) : nat :=
  match tr with
  | [] => O
  | SessionOpened :: tr' => S (sessions_opened tr')
  | _ :: tr' => sessions_opened tr'
  end.

Fixpoint sessions_closed (tr : list Event) : nat :=
  match tr with
  | [] => O
  | SessionClosed :: tr' => S (sessions_closed tr')
  | _ :: tr' => sessions_closed tr'
  end.

(** Sessions that were opened and not closed. *)
Definition sessions_left_open (tr : list Event) : nat :=
  (sessions_opened tr - sessions_closed tr)%nat.


Definition long_name : string :=
  String.concat "" (repeat "x"%string 101).

(* ================================================================== *)
(** ** Running the endpoints *)

(** Case analysis on the innermost test an endpoint is stuck on. *)
Ltac run_endpoint :=
  repeat match goal with
         | |- context [match ?x with _ => _ end] =>
             lazymatch x with
             | context [match _ with _ => _ end] => fail
             | _ => destruct x eqn:?; simpl
             end
         end.

(* ================================================================== *)

Lemma find_after_insert :
  forall (docs : list Document) id cont emb,
    exists d, find (fun doc => doc_id doc =? id) (docs ++ [mkDocument id cont emb]) = Some d
              /\ doc_id d = id.
Proof.
  induction docs as [|x docs IH]; intros id cont emb; simpl.
  - rewrite Z.eqb_refl. eexists; split; [reflexivity | reflexivity].
  - destruct (doc_id x =? id) eqn:E.
    + exists x. split; [reflexivity | now apply Z.eqb_eq].
    + apply IH.
Qed.

Lemma bind_vector_ok :
  forall v, List.length v = EMBEDDING_DIM -> bind_vector EMBEDDING_DIM v = inr v.
Proof.
  intros v H. unfold bind_vector. rewrite H, Nat.eqb_refl. reflexivity.
Qed.


Lemma to_float4_vector_length :
  forall v v', to_float4_vector v = Some v' -> List.length v' = List.length v.
Proof.
  induction v as [|x v IH]; intros v' H; simpl in H.
  - injection H as <-. reflexivity.
  - destruct (to_float4 x) as [y|]; [|discriminate].
    destruct (to_float4_vector v) as [u|]; [|discriminate].
    injection H as <-. simpl. f_equal. now apply IH.
Qed.

(** The insert of a document, by the checks it passes. *)
Lemma flush_document_refused :
  forall d cont (v : vector) e,
    document_refusal d cont v = Some e ->
    flush [NewDocument (Some cont) (Some v)] d = inl e.
Proof.
  intros d cont v e. unfold document_refusal, flush, flush_one, opt_bind_vector,
    bind_vector, opt_bind_text, bind_string, opt_store_vector, nextval.
  destruct (Nat.eqb (List.length v) EMBEDDING_DIM); simpl; [|congruence].
  destruct (has_nul cont); simpl; [congruence|].
  destruct (to_float4_vector v); simpl; [|congruence].
  destruct (documents_seq d <? INT4_MAX); simpl; congruence.
Qed.

Lemma flush_document_stored :
  forall d cont (v : vector),
    document_refusal d cont v = None ->
    exists v',
      to_float4_vector v = Some v'
      /\ List.length v = EMBEDDING_DIM
      /\ has_nul cont = false
      /\ documents_seq d < INT4_MAX
      /\ flush [NewDocument (Some cont) (Some v)] d
         = inr (inserted d cont v', [documents_seq d + 1]).
Proof.
  intros d cont v. unfold document_refusal, flush, flush_one, opt_bind_vector,
    bind_vector, opt_bind_text, bind_string, opt_store_vector, nextval, inserted.
  destruct (Nat.eqb (List.length v) EMBEDDING_DIM) eqn:El; simpl; [|discriminate].
  destruct (has_nul cont); simpl; [discriminate|].
  destruct (to_float4_vector v) as [v'|]; simpl; [|discriminate].
  destruct (documents_seq d <? INT4_MAX) eqn:Es; simpl; [|discriminate].
  intros _. exists v'. apply Nat.eqb_eq in El. apply Z.ltb_lt in Es.
  repeat split; assumption.
Qed.

(** The ways [add_document] can go. *)
Lemma add_document_unavailable :
  forall embed_query doc w,
    embed_query (content doc) = None ->
    add_document embed_query doc w =
    (inl EmbeddingUnavailable,
     mkWorld (db w) (trace w ++ [SessionOpened; EmbedCalled (content doc)])).
Proof.
  intros embed_query doc w H.
  unfold add_document, SessionLocal, call_embed, bind, emit, ret, raise; simpl.
  rewrite H, <- app_assoc. reflexivity.
Qed.

Lemma add_document_refused :
  forall embed_query doc w (v : vector) e,
    embed_query (content doc) = Some v ->
    document_refusal (db w) (content doc) v = Some e ->
    add_document embed_query doc w =
    (inl e, mkWorld (db w) (trace w ++ [SessionOpened; EmbedCalled (content doc)])).
Proof.
  intros embed_query doc w v e H Hr.
  pose proof (flush_document_refused _ _ _ Hr) as Hf.
  unfold add_document, SessionLocal, call_embed, commit, read_db, bind, emit, ret, raise.
  cbn -[flush]. rewrite H. cbn -[flush]. rewrite Hf. cbn.
  rewrite <- app_assoc. reflexivity.
Qed.


Lemma add_document_stored :
  forall embed_query doc w (v : vector),
    embed_query (content doc) = Some v ->
    document_refusal (db w) (content doc) v = None ->
    exists v',
      to_float4_vector v = Some v'
      /\ add_document embed_query doc w =
         (inr (mkStored (documents_seq (db w) + 1) "Stored with embedding"),
          mkWorld (inserted (db w) (content doc) v')
                  (trace w ++ [SessionOpened; EmbedCalled (content doc);
                               Committed; SessionClosed])).
Proof.
  intros embed_query doc w v H Hr.
  destruct (flush_document_stored _ _ _ Hr) as [v' [Hv [_ [_ [_ Hf]]]]].
  exists v'. split; [exact Hv|].
  unfold add_document, SessionLocal, call_embed, commit, refresh_document, close,
    read_db, write_db, bind, emit, ret, raise.
  cbn -[flush]. rewrite H. cbn -[flush]. rewrite Hf. cbn.
  unfold find_document; cbn.
  destruct (find_after_insert (documents (db w)) (documents_seq (db w) + 1)
                              (Some (content doc)) (@Some vector v')) as [d [Hd Hid]].
  rewrite Hd; cbn. rewrite Hid. unfold inserted.
  repeat rewrite <- app_assoc. reflexivity.
Qed.

(** [add_document] either raises and leaves the database alone, or stores
    one complete row. *)
Lemma add_document_outcome :
  forall embed_query doc w,
    (exists e,
        add_document embed_query doc w =
        (inl e, mkWorld (db w) (trace w ++ [SessionOpened; EmbedCalled (content doc)])))
    \/ (exists (v v' : vector),
           embed_query (content doc) = Some v
           /\ document_refusal (db w) (content doc) v = None
           /\ to_float4_vector v = Some v'
           /\ add_document embed_query doc w =
              (inr (mkStored (documents_seq (db w) + 1) "Stored with embedding"),
               mkWorld (inserted (db w) (content doc) v')
                       (trace w ++ [SessionOpened; EmbedCalled (content doc);
                                    Committed; SessionClosed]))).
Proof.
  intros embed_query doc w.
  destruct (embed_query (content doc)) as [v|] eqn:E.
  - destruct (document_refusal (db w) (content doc) v) as [e|] eqn:Hr.
    + left. exists e. now apply add_document_refused with v.
    + right. destruct (add_document_stored _ _ w E Hr) as [v' [Hv Hrun]].
      exists v, v'. repeat split; assumption.
  - left. eexists. now apply add_document_unavailable.
Qed.

Lemma search_document_unavailable :
  forall pg embed_query payload w,
    embed_query (query payload) = None ->
    search_document pg embed_query payload w =
    (inl EmbeddingUnavailable,
     mkWorld (db w) (trace w ++ [SessionOpened; EmbedCalled (query payload)])).
Proof.
  intros pg embed_query payload w H.
  unfold search_document, SessionLocal, call_embed, bind, emit, ret, raise; simpl.
  rewrite H, <- app_assoc. reflexivity.
Qed.

Lemma search_document_refused :
  forall pg embed_query payload w (v : vector),
    embed_query (query payload) = Some v ->
    query_refused (db w) v = true ->
    search_document pg embed_query payload w =
    (inl (DimensionMismatch EMBEDDING_DIM (List.length v)),
     mkWorld (db w) (trace w ++ [SessionOpened; EmbedCalled (query payload)])).
Proof.
  intros pg embed_query payload w v H Hr. unfold query_refused in Hr.
  unfold search_document, SessionLocal, call_embed, ranked_query, read_db,
    bind, emit, ret, raise; cbn -[limit to_hits existsb].
  rewrite H; cbn -[limit to_hits existsb]. rewrite Hr.
  rewrite <- app_assoc. reflexivity.
Qed.

Lemma search_document_ran :
  forall pg embed_query payload w (v : vector),
    embed_query (query payload) = Some v ->
    query_refused (db w) v = false ->
    search_document pg embed_query payload w =
    (match to_hits (ranking pg v (documents (db w))) with
     | inl e => inl e
     | inr hits => inr hits
     end,
     mkWorld (db w)
             (trace w ++ [SessionOpened; EmbedCalled (query payload); SessionClosed])).
Proof.
  intros pg embed_query payload w v H Hr. unfold query_refused in Hr.
  unfold search_document, SessionLocal, call_embed, ranked_query, close, read_db,
    bind, emit, ret, raise; cbn -[limit to_hits existsb].
  rewrite H; cbn -[limit to_hits existsb]. rewrite Hr.
  fold (ranking pg v (documents (db w))).
  destruct (to_hits (ranking pg v (documents (db w))));
    cbn; repeat rewrite <- app_assoc; reflexivity.
Qed.

Lemma query_fits :
  forall d (v : vector), List.length v = EMBEDDING_DIM -> query_refused d v = false.
Proof.
  intros d v H. unfold query_refused. rewrite H, Nat.eqb_refl; simpl.
  apply andb_false_r.
Qed.


Lemma search_document_ranked :
  forall pg embed_query payload w v,
    embed_query (query payload) = Some v ->
    List.length v = EMBEDDING_DIM ->
    search_document pg embed_query payload w =
    (match to_hits (ranking pg v (documents (db w))) with
     | inl e => inl e
     | inr hits => inr hits
     end,
     mkWorld (db w)
             (trace w ++ [SessionOpened; EmbedCalled (query payload); SessionClosed])).
Proof.
  intros pg embed_query payload w v H Hlen.
  apply search_document_ran; [exact H|now apply query_fits].
Qed.

Lemma search_document_db :
  forall pg embed_query payload w,
    db (snd (search_document pg embed_query payload w)) = db w.
Proof.
  intros pg embed_query payload w.
  destruct (embed_query (query payload)) as [v|] eqn:E.
  - destruct (query_refused (db w) v) eqn:Hr.
    + now rewrite (@search_document_refused pg embed_query payload w v E Hr).
    + now rewrite (@search_document_ran pg embed_query payload w v E Hr).
  - now rewrite (@search_document_unavailable pg embed_query payload w E).
Qed.

Lemma create_item_documents :
  forall item w,
    documents (db (snd (create_item item w))) = documents (db w)
    /\ documents_seq (db (snd (create_item item w))) = documents_seq (db w).
Proof.
  intros item w.
  unfold create_item, SessionLocal, commit, refresh_item, close, read_db, write_db,
    bind, emit, ret, raise; simpl.
  run_endpoint; split; reflexivity.
Qed.

Lemma get_items_db : forall w, db (snd (get_items w)) = db w.
Proof. intros w. reflexivity. Qed.

Lemma delete_item_documents :
  forall wanted w,
    documents (db (snd (delete_item wanted w))) = documents (db w)
    /\ documents_seq (db (snd (delete_item wanted w))) = documents_seq (db w).
Proof.
  intros wanted w.
  unfold delete_item, SessionLocal, commit, close, read_db, write_db,
    bind, emit, ret, raise; simpl.
  run_endpoint; split; reflexivity.
Qed.

(** A request leaves the documents as they are or appends one complete row. *)
Lemma serve_documents :
  forall pg embed_query r w,
    documents (db (serve pg embed_query r w)) = documents (db w)
    \/ exists cont (v : vector),
        List.length v = EMBEDDING_DIM
        /\ documents (db (serve pg embed_query r w)) =
           documents (db w) ++ [mkDocument (documents_seq (db w) + 1) (Some cont) (Some v)].
Proof.
  intros pg embed_query r w. destruct r as [item| |wanted|doc|payload]; simpl.
  - left. apply create_item_documents.
  - left. reflexivity.
  - left. apply delete_item_documents.
  - destruct (add_document_outcome embed_query doc w)
      as [[e Hrun]|[v [v' [E [Hr [Hv Hrun]]]]]]; rewrite Hrun.
    + left. reflexivity.
    + right. exists (content doc), v'. split; [|reflexivity].
      destruct (flush_document_stored _ _ _ Hr) as [u [Hu [Hlen _]]].
      rewrite (to_float4_vector_length _ Hv). exact Hlen.
  - left. rewrite search_document_db. reflexivity.
Qed.

Lemma reachable_paired :
  forall w, reachable w -> Forall (fun d => paired d = true) (documents (db w)).
Proof.
  induction 1 as [|pg embed_query r w Hw IH].
  - constructor.
  - destruct (serve_documents pg embed_query r w) as [E|[cont [v [Hlen E]]]];
      rewrite E; [assumption|].
    apply Forall_app. split; [assumption|].
    constructor; [|constructor].
    unfold paired; simpl. now apply Nat.eqb_eq.
Qed.

(* ================================================================== *)
(** ** Sorting and ranking *)
(* ================================================================== *)

Lemma in_limit :
  forall A n (l : list A) x, In x (limit n l) -> In x l.
Proof.
  intros A n l x H. unfold limit in H.
  rewrite <- (firstn_skipn n l). apply in_or_app. now left.
Qed.

Section Ranking.

Variable pg : Postgres.
Hypothesis pg_lawful : lawful pg.

Lemma by_distance_total : total_leb (@by_distance pg).
Proof.
  intros [d1 [x|]] [d2 [y|]]; unfold by_distance; simpl; auto.
  apply (float8_total pg_lawful).
Qed.

Lemma by_distance_trans : transitive_leb (@by_distance pg).
Proof.
  intros [d1 [x|]] [d2 [y|]] [d3 [z|]]; unfold by_distance; simpl; auto;
    try discriminate.
  apply (float8_trans pg_lawful).
Qed.


Lemma ranking_sorted :
  forall q docs,
    StronglySorted (fun a b => @by_distance pg a b = true) (ranking pg q docs).
Proof.
  intros q docs. unfold ranking, limit.
  set (l := order_by pg _ _).
  assert (Hs : StronglySorted (fun a b => @by_distance pg a b = true) l)
    by (apply (order_by_sorted pg_lawful); [apply by_distance_total | apply by_distance_trans]).
  clearbody l. generalize 3%nat as n.
  induction Hs as [|a l Hs IH Ha]; intros [|n]; simpl; try constructor.
  - apply IH.
  - rewrite Forall_forall in *. intros x Hx. apply Ha.
    eapply in_limit. exact Hx.
Qed.

Lemma ranking_incl :
  forall q docs r, In r (ranking pg q docs) -> In r (map (score pg q) docs).
Proof.
  intros q docs r H. unfold ranking in H.
  apply in_limit in H.
  eapply Permutation_in; [apply (order_by_perm pg_lawful)|exact H].
Qed.


End Ranking.

Lemma ranking_length :
  forall pg q docs, (List.length (ranking pg q docs) <= 3)%nat.
Proof. intros pg q docs. unfold ranking, limit. apply firstn_le_length. Qed.

(** [to_hits] as a relation between rows and hits. *)
Lemma to_hits_inr :
  forall pg (rs : list (Scored pg)) hits,
    to_hits rs = inr hits <-> Forall2 (fun r h => to_hit r = inr h) rs hits.
Proof.
  intros pg rs. induction rs as [|r rs IH]; intros hits; simpl.
  - split; intros H.
    + injection H as <-. constructor.
    + inversion H. reflexivity.
  - destruct (to_hit r) as [e|h] eqn:Er.
    + split; intros H; [discriminate|]. inversion H; congruence.
    + destruct (to_hits rs) as [e|hs] eqn:Ers.
      * split; intros H; [discriminate|]. inversion H; subst.
        apply IH in H4. discriminate.
      * split; intros H.
        -- injection H as <-. constructor; [assumption|]. now apply IH.
        -- inversion H; subst. apply IH in H4. congruence.
Qed.

Lemma to_hit_triple :
  forall pg q d (h : Hit (float8 pg)),
    to_hit (score pg q d) = inr h -> hit_triple h = doc_triple pg q d.
Proof.
  intros pg q d h. unfold to_hit, score, hit_triple, doc_triple; simpl.
  destruct (distance_to pg q d); intros H; [|discriminate].
  injection H as <-. reflexivity.
Qed.

Lemma to_hits_paired :
  forall pg q (rs : list (Scored pg)) docs,
    Forall (fun d => paired d = true) docs ->
    incl rs (map (score pg q) docs) ->
    exists hits, to_hits rs = inr hits.
Proof.
  intros pg q rs docs Hp. induction rs as [|r rs IH]; intros Hincl; simpl.
  - eexists; reflexivity.
  - destruct IH as [hs Hhs].
    { intros x Hx. apply Hincl. now right. }
    assert (Hr : In r (map (score pg q) docs)) by (apply Hincl; now left).
    apply in_map_iff in Hr. destruct Hr as [d [<- Hd]].
    rewrite Forall_forall in Hp. specialize (Hp d Hd).
    unfold paired in Hp. unfold to_hit, score, distance_to; simpl.
    destruct (doc_content d); [|discriminate].
    destruct (doc_embedding d); [|discriminate]. simpl.
    rewrite Hhs. eexists; reflexivity.
Qed.

(* ================================================================== *)
(** ** The two servers keep SQL's promises *)
(* ================================================================== *)

Section InsertionSorts.

Variable A : Type.
Variable leb : A -> A -> bool.

Lemma insert_front_perm :
  forall x l, Permutation (insert_front leb x l) (x :: l).
Proof.
  intros x l. induction l as [|y l IH]; simpl.
  - reflexivity.
  - destruct (leb x y); [reflexivity|].
    rewrite IH. apply perm_swap.
Qed.

Lemma insert_behind_perm :
  forall x l, Permutation (insert_behind leb x l) (x :: l).
Proof.
  intros x l. induction l as [|y l IH]; simpl.
  - reflexivity.
  - destruct (leb y x); [|reflexivity].
    rewrite IH. apply perm_swap.
Qed.

Lemma sort_keeping_ties_perm :
  forall l, Permutation (sort_keeping_ties leb l) l.
Proof.
  induction l as [|x l IH]; simpl.
  - reflexivity.
  - rewrite insert_front_perm. now constructor.
Qed.

Lemma sort_reversing_ties_perm :
  forall l, Permutation (sort_reversing_ties leb l) l.
Proof.
  induction l as [|x l IH]; simpl.
  - reflexivity.
  - rewrite insert_behind_perm. now constructor.
Qed.

Hypothesis leb_total : total_leb leb.
Hypothesis leb_trans : transitive_leb leb.

Let le (a b : A) : Prop := leb a b = true.

Lemma insert_front_sorted :
  forall x l, StronglySorted le l -> StronglySorted le (insert_front leb x l).
Proof.
  intros x l Hs. induction Hs as [|y l Hs IH Hy]; simpl.
  - repeat constructor.
  - destruct (leb x y) eqn:E.
    + constructor; [now constructor|].
      constructor; [exact E|].
      rewrite Forall_forall in *. intros z Hz.
      apply leb_trans with y; [exact E|]. now apply Hy.
    + constructor; [exact IH|].
      rewrite Forall_forall in *. intros z Hz.
      apply (Permutation_in _ (insert_front_perm x l)) in Hz.
      destruct Hz as [<-|Hz]; [|now apply Hy].
      destruct (leb_total x y) as [H|H]; [congruence|exact H].
Qed.

Lemma insert_behind_sorted :
  forall x l, StronglySorted le l -> StronglySorted le (insert_behind leb x l).
Proof.
  intros x l Hs. induction Hs as [|y l Hs IH Hy]; simpl.
  - repeat constructor.
  - destruct (leb y x) eqn:E.
    + constructor; [exact IH|].
      rewrite Forall_forall in *. intros z Hz.
      apply (Permutation_in _ (insert_behind_perm x l)) in Hz.
      destruct Hz as [<-|Hz]; [exact E|now apply Hy].
    + assert (Hxy : leb x y = true)
        by (destruct (leb_total x y) as [H|H]; [exact H|congruence]).
      constructor; [now constructor|].
      constructor; [exact Hxy|].
      rewrite Forall_forall in *. intros z Hz.
      apply leb_trans with y; [exact Hxy|]. now apply Hy.
Qed.

Lemma sort_keeping_ties_sorted :
  forall l, StronglySorted le (sort_keeping_ties leb l).
Proof.
  induction l as [|x l IH]; simpl.
  - constructor.
  - now apply insert_front_sorted.
Qed.

Lemma sort_reversing_ties_sorted :
  forall l, StronglySorted le (sort_reversing_ties leb l).
Proof.
  induction l as [|x l IH]; simpl.
  - constructor.
  - now apply insert_behind_sorted.
Qed.

End InsertionSorts.

Lemma Qle_bool_total : total_leb Qle_bool.
Proof.
  intros x y. destruct (Qlt_le_dec x y) as [H|H].
  - left. apply Qle_bool_iff. now apply Qlt_le_weak.
  - right. now apply Qle_bool_iff.
Qed.

Lemma Qle_bool_trans : transitive_leb Qle_bool.
Proof.
  intros x y z Hxy Hyz. apply Qle_bool_iff. apply Qle_bool_iff in Hxy, Hyz.
  now apply Qle_trans with y.
Qed.

Lemma pg_keeping_ties_lawful : lawful pg_keeping_ties.
Proof.
  constructor; simpl.
  - exact Qle_bool_total.
  - exact Qle_bool_trans.
  - intros A leb l. apply sort_keeping_ties_perm.
  - intros A leb l Ht Htr. now apply sort_keeping_ties_sorted.
Qed.

Lemma pg_reversing_ties_lawful : lawful pg_reversing_ties.
Proof.
  constructor; simpl.
  - exact Qle_bool_total.
  - exact Qle_bool_trans.
  - intros A leb l. apply sort_reversing_ties_perm.
  - intros A leb l Ht Htr. now apply sort_reversing_ties_sorted.
Qed.

(* ================================================================== *)
(** ** The stand-in distance is a cosine distance *)
(* ================================================================== *)

Section CosineStandIn.

Local Open Scope Q_scope.

Lemma dot_nil_r : forall a, dot a [] = 0.
Proof. intros a. unfold dot. destruct a; reflexivity. Qed.

Lemma dot_cons : forall x a y b, dot (x :: a) (y :: b) = x * y + dot a b.
Proof. reflexivity. Qed.

Lemma Qsquare_nonneg : forall z : Q, 0 <= z * z.
Proof.
  intros [n d]. unfold Qle, Qmult; simpl. nia.
Qed.

Lemma dot_self_nonneg : forall a, 0 <= dot a a.
Proof.
  induction a as [|x a IH].
  - unfold dot; simpl. lra.
  - rewrite dot_cons. pose proof (Qsquare_nonneg x). lra.
Qed.

Lemma dot_quadratic :
  forall a b s t,
    0 <= dot a a * (s * s) - 2 * dot a b * (s * t) + dot b b * (t * t).
Proof.
  induction a as [|x a IH]; intros b s t.
  - pose proof (dot_self_nonneg b). change (dot [] []) with 0.
    change (dot [] b) with 0. nra.
  - destruct b as [|y b].
    + rewrite dot_nil_r. pose proof (dot_self_nonneg (x :: a)).
      change (dot [] []) with 0. nra.
    + rewrite !dot_cons. specialize (IH b s t).
      pose proof (Qsquare_nonneg (x * s - y * t)) as Hsq.
      lra.
Qed.

Lemma cauchy_schwarz :
  forall a b, dot a b * dot a b <= dot a a * dot b b.
Proof.
  intros a b.
  pose proof (dot_self_nonneg a) as HA. pose proof (dot_self_nonneg b) as HC.
  pose proof (dot_quadratic a b (dot a b) (dot a a)) as H1.
  pose proof (dot_quadratic a b (dot b b) (dot a b)) as H2.
  pose proof (dot_quadratic a b 1 1) as H3.
  pose proof (dot_quadratic a b 1 (-1)) as H4.
  set (A := dot a a) in *. set (B := dot a b) in *. set (C := dot b b) in *.
  assert (HX : 0 * A <= (A * C - B * B) * A) by lra.
  assert (HY : 0 * C <= (A * C - B * B) * C) by lra.
  destruct (Qlt_le_dec 0 A) as [HposA|HzeroA].
  - apply (Qmult_lt_0_le_reg_r _ _ _ HposA) in HX. lra.
  - destruct (Qlt_le_dec 0 C) as [HposC|HzeroC].
    + apply (Qmult_lt_0_le_reg_r _ _ _ HposC) in HY. lra.
    + assert (HB : B == 0) by lra.
      assert (HA0 : A == 0) by lra.
      rewrite HB, HA0. lra.
Qed.

Lemma map_float4_round :
  forall v v', to_float4_vector v = Some v' -> map float4_round v = v'.
Proof.
  induction v as [|x v IH]; intros v' H; simpl in H.
  - injection H as <-. reflexivity.
  - unfold float4_round at 1. simpl.
    destruct (to_float4 x) as [y|]; [|discriminate].
    destruct (to_float4_vector v) as [u|]; [|discriminate].
    injection H as <-. f_equal. now apply IH.
Qed.

Lemma Qdiv_by_zero : forall p d : Q, d == 0 -> p / d == 0.
Proof.
  intros p [n k] H. unfold Qeq in H; simpl in H.
  assert (n = 0%Z) by lia. subst n. unfold Qdiv, Qinv; simpl. lra.
Qed.

(** The square of the cosine is between 0 and 1. *)
Lemma cosine_square_bounds :
  forall a b,
    0 <= dot a b * dot a b / (dot a a * dot b b)
    /\ dot a b * dot a b / (dot a a * dot b b) <= 1.
Proof.
  intros a b.
  pose proof (dot_self_nonneg a) as HA. pose proof (dot_self_nonneg b) as HC.
  pose proof (cauchy_schwarz a b) as Hcs.
  pose proof (Qsquare_nonneg (dot a b)) as Hp.
  assert (HD : 0 <= dot a a * dot b b) by now apply Qmult_le_0_compat.
  destruct (Qlt_le_dec 0 (dot a a * dot b b)) as [Hpos|Hzero].
  - split.
    + apply Qle_shift_div_l; [exact Hpos|]. lra.
    + apply Qle_shift_div_r; [exact Hpos|]. lra.
  - assert (Hz : dot a a * dot b b == 0) by lra.
    rewrite (@Qdiv_by_zero _ _ Hz). split; lra.
Qed.

Lemma rational_cosine_nonneg :
  forall a b, Qle_bool 0 (rational_cosine_distance a b) = true.
Proof.
  intros a b. apply Qle_bool_iff. unfold rational_cosine_distance.
  rewrite Qred_correct.
  destruct (cosine_square_bounds a (map float4_round b)) as [H0 H1].
  destruct (Qle_bool 0 (dot a (map float4_round b))); lra.
Qed.

Lemma rational_cosine_self_nearest :
  forall v v' e,
    to_float4_vector v = Some v' ->
    Qle_bool (rational_cosine_distance v' v) (rational_cosine_distance e v) = true.
Proof.
  intros v v' e Hv. apply Qle_bool_iff. unfold rational_cosine_distance.
  rewrite (@map_float4_round _ _ Hv), !Qred_correct.
  pose proof (dot_self_nonneg v') as HA.
  assert (Hself : Qle_bool 0 (dot v' v') = true) by now apply Qle_bool_iff.
  rewrite Hself.
  destruct (cosine_square_bounds e v') as [H0 H1].
  destruct (Qlt_le_dec 0 (dot v' v')) as [Hpos|Hzero].
  - assert (Hone : dot v' v' * dot v' v' / (dot v' v' * dot v' v') == 1).
    { unfold Qdiv. apply Qmult_inv_r. intros Hz.
      pose proof (Qmult_lt_0_compat _ _ Hpos Hpos). lra. }
    rewrite Hone. destruct (Qle_bool 0 (dot e v')); lra.
  - assert (Hz : dot v' v' == 0) by lra.
    assert (Hzz : dot v' v' * dot v' v' == 0) by (rewrite Hz; lra).
    rewrite (@Qdiv_by_zero _ _ Hzz).
    assert (Hd : dot e e * dot v' v' == 0) by (rewrite Hz; lra).
    destruct (Qle_bool 0 (dot e v')); [|lra].
    rewrite (@Qdiv_by_zero _ _ Hd). lra.
Qed.

End CosineStandIn.

Lemma pg_keeping_ties_metric : cosine_metric pg_keeping_ties.
Proof.
  constructor; simpl.
  - exact rational_cosine_nonneg.
  - exact rational_cosine_self_nearest.
Qed.

Lemma after_adding_reachable :
  forall pg embed_query texts, reachable (after_adding pg embed_query texts).
Proof.
  intros pg embed_query texts. unfold after_adding.
  generalize reachable_initial. generalize initial_world.
  induction texts as [|t texts IH]; intros w Hw; simpl.
  - exact Hw.
  - apply IH.
    exact (reachable_serve pg embed_query (PostVectorAdd (mkDocCreate t)) Hw).
Qed.

Lemma commits_app :
  forall tr1 tr2, commits (tr1 ++ tr2) = (commits tr1 + commits tr2)%nat.
Proof.
  induction tr1 as [|e tr1 IH]; intros tr2; simpl.
  - reflexivity.
  - destruct e; simpl; rewrite IH; reflexivity.
Qed.

Lemma embed_calls_app :
  forall tr1 tr2, embed_calls (tr1 ++ tr2) = embed_calls tr1 ++ embed_calls tr2.
Proof.
  induction tr1 as [|e tr1 IH]; intros tr2; simpl.
  - reflexivity.
  - destruct e; simpl; rewrite IH; reflexivity.
Qed.

Lemma find_item_absent :
  forall wanted d,
    ~ In wanted (map item_id (items d)) -> find_item wanted d = None.
Proof.
  intros wanted d H. unfold find_item.
  destruct (find _ (items d)) as [it|] eqn:E; [|reflexivity].
  apply find_some in E. destruct E as [Hin Heq]. apply Z.eqb_eq in Heq.
  exfalso. apply H. apply in_map_iff. now exists it.
Qed.

(* ================================================================== *)
(** ** The properties of the specification *)
(* ================================================================== *)

(** C9. Reads never mutate: whatever the stored state and the query, and
    however the search ends, the database after [search_document] is the
    database before it: no row added, removed or changed. *)
Theorem search_document_never_writes :
  forall pg embed_query payload w,
    db (snd (search_document pg embed_query payload w)) = db w.
Proof.
  intros pg embed_query payload w.
  destruct (embed_query (query payload)) as [v|] eqn:E.
  - destruct (query_refused (db w) v) eqn:Hr.
    + now rewrite (@search_document_refused pg embed_query payload w v E Hr).
    + now rewrite (@search_document_ran pg embed_query payload w v E Hr).
  - now rewrite (@search_document_unavailable pg embed_query payload w E).
Qed.

(** C10. Deleting an id that is not in the items table returns the
    [Item not found] body as a value (no exception), leaves the database as
    it was, and commits nothing: the only thing that happened is that a
    session was opened. *)
Theorem delete_item_not_found :
  forall wanted w,
    ~ In wanted (map item_id (items (db w))) ->
    fst (delete_item wanted w) = inr not_found_body
    /\ db (snd (delete_item wanted w)) = db w
    /\ commits (trace (snd (delete_item wanted w))) = commits (trace w)
    /\ trace (snd (delete_item wanted w)) = trace w ++ [SessionOpened].
Proof.
  intros wanted w H.
  unfold delete_item, SessionLocal, read_db, bind, emit, ret; simpl.
  rewrite find_item_absent by assumption; simpl.
  rewrite commits_app; simpl. repeat split; auto with arith.
Qed.

Lemma delete_item_not_found_witness :
  fst (delete_item 2 world_one_item) = inr not_found_body
  /\ db (snd (delete_item 2 world_one_item)) = db world_one_item
  /\ commits (trace (snd (delete_item 2 world_one_item))) = commits (trace world_one_item)
  /\ trace (snd (delete_item 2 world_one_item)) = trace world_one_item ++ [SessionOpened].
Proof.
  apply (@delete_item_not_found 2 world_one_item).
  vm_compute. intros [H|[]]. discriminate H.
Defined.

(** C4. Ingestion is atomic with respect to the embedding call: when the
    provider fails on the content, [add_document] ends with that failure,
    nothing is committed and the database is the one before the call, so no
    row with content and without embedding can be seen. *)
Theorem add_document_embedding_failure :
  forall embed_query doc w,
    embed_query (content doc) = None ->
    fst (add_document embed_query doc w) = inl EmbeddingUnavailable
    /\ db (snd (add_document embed_query doc w)) = db w
    /\ commits (trace (snd (add_document embed_query doc w))) = commits (trace w).
Proof.
  intros embed_query doc w H.
  rewrite (add_document_unavailable _ _ w H); simpl.
  rewrite commits_app; simpl. repeat split; auto with arith.
Qed.

Lemma add_document_embedding_failure_witness :
  fst (add_document embed_codes (mkDocCreate "") world_animals) = inl EmbeddingUnavailable
  /\ db (snd (add_document embed_codes (mkDocCreate "") world_animals)) = db world_animals
  /\ commits (trace (snd (add_document embed_codes (mkDocCreate "") world_animals)))
     = commits (trace world_animals).
Proof.
  apply (@add_document_embedding_failure embed_codes (mkDocCreate "") world_animals).
  reflexivity.
Defined.






(** C8. Content and embedding go together: in every state the service can
    reach, by any sequence of requests and whatever the collaborators do,
    every stored document has its content and an embedding of exactly 768
    components; no row has one without the other. *)
Theorem documents_always_paired :
  forall w,
    reachable w ->
    forall d, In d (documents (db w)) ->
      exists cont (v : vector),
        doc_content d = Some cont /\ doc_embedding d = Some v
        /\ List.length v = EMBEDDING_DIM.
Proof.
  intros w Hw d Hd.
  pose proof (reachable_paired Hw) as Hp.
  rewrite Forall_forall in Hp. specialize (Hp d Hd). unfold paired in Hp.
  destruct (doc_content d) as [cont|]; [|discriminate].
  destruct (doc_embedding d) as [v|]; [|discriminate].
  exists cont, v. repeat split. now apply Nat.eqb_eq.
Qed.

Lemma documents_always_paired_witness :
  documents (db world_animals) <> []
  /\ forall d, In d (documents (db world_animals)) ->
      exists cont (v : vector),
        doc_content d = Some cont /\ doc_embedding d = Some v
        /\ List.length v = EMBEDDING_DIM.
Proof.
  split.
  - vm_compute. discriminate.
  - apply (@documents_always_paired world_animals).
    apply after_adding_reachable.
Defined.

(** What a successful search went through. *)
Lemma search_document_inr :
  forall pg embed_query payload w hits,
    fst (search_document pg embed_query payload w) = inr hits ->
    exists v : vector,
      embed_query (query payload) = Some v
      /\ query_refused (db w) v = false
      /\ to_hits (ranking pg v (documents (db w))) = inr hits.
Proof.
  intros pg embed_query payload w hits H.
  destruct (embed_query (query payload)) as [v|] eqn:E.
  - destruct (query_refused (db w) v) eqn:Hr.
    + rewrite (@search_document_refused pg embed_query payload w v E Hr) in H.
      discriminate.
    + rewrite (@search_document_ran pg embed_query payload w v E Hr) in H; simpl in H.
      exists v. repeat split; try assumption.
      destruct (to_hits (ranking pg v (documents (db w)))); congruence.
  - rewrite (@search_document_unavailable pg embed_query payload w E) in H.
    discriminate.
Qed.

Lemma search_document_trace :
  forall pg embed_query payload w,
    embed_calls (trace (snd (search_document pg embed_query payload w)))
    = embed_calls (trace w) ++ [query payload].
Proof.
  intros pg embed_query payload w.
  destruct (embed_query (query payload)) as [v|] eqn:E.
  - destruct (query_refused (db w) v) eqn:Hr.
    + rewrite (@search_document_refused pg embed_query payload w v E Hr); simpl.
      now rewrite embed_calls_app.
    + rewrite (@search_document_ran pg embed_query payload w v E Hr); simpl.
      now rewrite embed_calls_app.
  - rewrite (@search_document_unavailable pg embed_query payload w E); simpl.
    now rewrite embed_calls_app.
Qed.

Lemma Forall2_in_right :
  forall A B (R : A -> B -> Prop) l l' y,
    Forall2 R l l' -> In y l' -> exists x, In x l /\ R x y.
Proof.
  intros A B R l l' y H. induction H as [|a b l l' Hab H IH]; intros Hy.
  - destruct Hy.
  - destruct Hy as [<-|Hy].
    + exists a. split; [now left|assumption].
    + destruct (IH Hy) as [x [Hx Hr]]. exists x. split; [now right|assumption].
Qed.

Lemma to_hit_distance :
  forall pg (r : Scored pg) h, to_hit r = inr h -> snd r = Some (hit_distance h).
Proof.
  intros pg [d [x|]] h; unfold to_hit; simpl; intros H; [|discriminate].
  injection H as <-. reflexivity.
Qed.

Lemma hits_ascending :
  forall pg (rs : list (Scored pg)) hits,
    Forall2 (fun r h => to_hit r = inr h) rs hits ->
    StronglySorted (fun a b => by_distance a b = true) rs ->
    ascending pg hits.
Proof.
  intros pg rs hits H. unfold ascending.
  induction H as [|r h rs hits Hrh H IH]; intros Hs.
  - constructor.
  - inversion Hs as [|? ? Hs' Hall]; subst.
    constructor; [now apply IH|].
    rewrite Forall_forall in *. intros h' Hh'.
    destruct (Forall2_in_right _ H Hh') as [r' [Hr' Hrh']].
    specialize (Hall r' Hr'). unfold by_distance in Hall.
    rewrite (@to_hit_distance pg _ _ Hrh), (@to_hit_distance pg _ _ Hrh') in Hall.
    exact Hall.
Qed.

(** C5, as the code has it. The search takes the query text and nothing
    else; the number of results is fixed at 3 and no caller can change it.
    It calls the embedding provider exactly once, with the query text, and
    a successful search returns at most 3 triples, each the id, content and
    distance of a stored document. *)
Theorem search_document_fixed_limit :
  forall pg embed_query payload w,
    lawful pg ->
    embed_calls (trace (snd (search_document pg embed_query payload w)))
    = embed_calls (trace w) ++ [query payload]
    /\ forall hits,
        fst (search_document pg embed_query payload w) = inr hits ->
        (List.length hits <= 3)%nat
        /\ exists v : vector,
            embed_query (query payload) = Some v
            /\ forall h, In h hits ->
                 In (hit_triple h) (map (doc_triple pg v) (documents (db w))).
Proof.
  intros pg embed_query payload w Hpg. split; [apply search_document_trace|].
  intros hits H.
  destruct (@search_document_inr pg embed_query payload w hits H) as [v [E [Hlen Hh]]].
  apply to_hits_inr in Hh. split.
  - rewrite <- (Forall2_length Hh). apply ranking_length.
  - exists v. split; [exact E|]. intros h Hin.
    destruct (Forall2_in_right _ Hh Hin) as [r [Hr Hrh]].
    apply (ranking_incl Hpg) in Hr. apply in_map_iff in Hr.
    destruct Hr as [d [<- Hd]].
    rewrite (@to_hit_triple pg _ _ _ Hrh). now apply in_map.
Qed.

Lemma search_document_fixed_limit_witness :
  embed_calls (trace (snd (search_document pg_keeping_ties embed_codes
                                           (mkSearchQuery "cat") world_four)))
  = embed_calls (trace world_four) ++ ["cat"%string]
  /\ forall hits,
      fst (search_document pg_keeping_ties embed_codes (mkSearchQuery "cat") world_four)
      = inr hits ->
      (List.length hits <= 3)%nat
      /\ exists v : vector,
          embed_codes "cat"%string = Some v
          /\ forall h, In h hits ->
               In (hit_triple h)
                  (map (doc_triple pg_keeping_ties v) (documents (db world_four))).
Proof.
  apply (@search_document_fixed_limit pg_keeping_ties embed_codes
           (mkSearchQuery "cat") world_four).
  exact pg_keeping_ties_lawful.
Defined.

(** C5 as stated fails: a caller who wants one result (k = 1) has no way to
    say so, and gets three. *)
Lemma search_document_has_no_k :
  fst (search_document pg_keeping_ties embed_codes (mkSearchQuery "cat") world_animals)
  = inr hits_animals
  /\ List.length hits_animals = 3%nat
  /\ ~ (forall k : nat, (0 < k)%nat -> (List.length hits_animals <= k)%nat).
Proof.
  split; [vm_compute; reflexivity|]. split; [reflexivity|].
  intros H. specialize (H 1%nat (Nat.lt_0_succ 0)). simpl in H. lia.
Qed.







(** C2, as the code has it. For a fixed stored collection and query, a
    successful search computes a distance for every stored document, has
    the server put all of them in ascending order of distance and returns
    the first three, in ascending order of distance; the query asks for
    ORDER BY distance and nothing more, so where two documents are at the
    same distance their order is the one the server's sort leaves them
    in. *)
Theorem search_sorted_ties_to_server :
  forall pg embed_query payload w hits,
    lawful pg ->
    fst (search_document pg embed_query payload w) = inr hits ->
    (exists (v : vector) (full : list (Scored pg)),
        embed_query (query payload) = Some v
        /\ Permutation full (map (score pg v) (documents (db w)))
        /\ StronglySorted (fun a b => by_distance a b = true) full
        /\ to_hits (limit 3 full) = inr hits)
    /\ ascending pg hits.
Proof.
  intros pg embed_query payload w hits Hpg H.
  destruct (@search_document_inr pg embed_query payload w hits H) as [v [E [_ Hh]]].
  split.
  - exists v, (order_by pg (@by_distance pg) (map (score pg v) (documents (db w)))).
    split; [exact E|]. split; [apply (order_by_perm Hpg)|]. split.
    + apply (order_by_sorted Hpg);
        [now apply by_distance_total | now apply by_distance_trans].
    + exact Hh.
  - apply to_hits_inr in Hh. apply (@hits_ascending pg _ _ Hh). now apply ranking_sorted.
Qed.

Lemma search_sorted_ties_to_server_witness :
  (exists (v : vector) (full : list (Scored pg_keeping_ties)),
      embed_codes "cat"%string = Some v
      /\ Permutation full (map (score pg_keeping_ties v) (documents (db world_four)))
      /\ StronglySorted (fun a b => by_distance a b = true) full
      /\ to_hits (limit 3 full) = inr hits_animals)
  /\ ascending pg_keeping_ties hits_animals.
Proof.
  apply (@search_sorted_ties_to_server pg_keeping_ties embed_codes
           (mkSearchQuery "cat") world_four).
  - exact pg_keeping_ties_lawful.
  - vm_compute. reflexivity.
Defined.

(** C2 as stated fails: with the same text stored seven times, PostgreSQL's
    sort for LIMIT 3 keeps the three oldest copies in a heap and empties
    it; all three are at distance 0 and they come back as ids 2, 3, 1. *)
Lemma ties_not_in_id_order :
  fst (search_document pg_tuplesort embed_codes (mkSearchQuery "cat") (world_cats 7))
  = inr hits_cats_heap
  /\ map (@hit_id _) hits_cats_heap = [2; 3; 1]
  /\ map (@hit_distance _) hits_cats_heap = [0%Q; 0%Q; 0%Q]
  /\ ~ ties_by_ascending_id pg_tuplesort hits_cats_heap.
Proof.
  split; [vm_compute; reflexivity|].
  split; [reflexivity|]. split; [reflexivity|].
  intros Hties.
  specialize (Hties 1%nat 2%nat _ _ (Nat.lt_succ_diag_r 1) eq_refl eq_refl eq_refl).
  simpl in Hties. lia.
Qed.

(* ================================================================== *)
(** ** Where a row lands in a sorted, limited result *)
(* ================================================================== *)

Section Limit.

Variable A : Type.
Variable leb : A -> A -> bool.
Hypothesis leb_total : total_leb leb.

Let le (a b : A) : Prop := leb a b = true.

Lemma leb_refl : forall x, leb x x = true.
Proof. intros x. destruct (leb_total x x); assumption. Qed.

Lemma filter_length_perm :
  forall (f : A -> bool) l l',
    Permutation l l' -> List.length (filter f l) = List.length (filter f l').
Proof.
  intros f l l' H. induction H as [|a l l' H IH|a b l|l l' l'' H1 IH1 H2 IH2]; simpl.
  - reflexivity.
  - destruct (f a); simpl; congruence.
  - destruct (f a), (f b); reflexivity.
  - congruence.
Qed.

Lemma filter_length_zero :
  forall (f : A -> bool) l x,
    List.length (filter f l) = 0%nat -> In x l -> f x = false.
Proof.
  intros f l x H Hx. destruct (f x) eqn:E; [|reflexivity].
  assert (Hin : In x (filter f l)) by (apply filter_In; now split).
  destruct (filter f l); [destruct Hin|discriminate].
Qed.

(** A row with at most [n] rows at or before it is among the first [n]. *)
Lemma limit_keeps_close :
  forall l, StronglySorted le l ->
    forall n x,
      In x l ->
      (List.length (filter (fun y => leb y x) l) <= n)%nat ->
      In x (limit n l).
Proof.
  intros l Hs. induction Hs as [|a l Hs IH Ha]; intros n x Hx Hcount.
  - destruct Hx.
  - rewrite Forall_forall in Ha.
    assert (Hax : leb a x = true).
    { destruct Hx as [<-|Hx]; [apply leb_refl|now apply Ha]. }
    simpl in Hcount. rewrite Hax in Hcount. simpl in Hcount.
    destruct n as [|n]; [lia|]. simpl.
    destruct Hx as [<-|Hx]; [now left|].
    right. apply IH; [exact Hx|lia].
Qed.

(** A row that nothing else is at or before comes first. *)
Lemma sorted_head_closest :
  forall l x,
    StronglySorted le l ->
    In x l ->
    (forall y, In y l -> leb y x = true -> y = x) ->
    hd_error l = Some x.
Proof.
  intros l x Hs Hx Honly. destruct Hs as [|a l Hs Ha].
  - destruct Hx.
  - simpl. f_equal. apply Honly; [now left|].
    rewrite Forall_forall in Ha.
    destruct Hx as [<-|Hx]; [apply leb_refl|now apply Ha].
Qed.

End Limit.

Lemma filter_length_map :
  forall A B (g : A -> B) (f : B -> bool) l,
    List.length (filter f (map g l)) = List.length (filter (fun a => f (g a)) l).
Proof.
  intros A B g f l. induction l as [|a l IH]; simpl.
  - reflexivity.
  - destruct (f (g a)); simpl; congruence.
Qed.

Lemma Forall2_in_left :
  forall A B (R : A -> B -> Prop) l l' x,
    Forall2 R l l' -> In x l -> exists y, In y l' /\ R x y.
Proof.
  intros A B R l l' x H. induction H as [|a b l l' Hab H IH]; intros Hx.
  - destruct Hx.
  - destruct Hx as [<-|Hx].
    + exists b. split; [now left|assumption].
    + destruct (IH Hx) as [y [Hy Hr]]. exists y. split; [now right|assumption].
Qed.

Lemma within_count :
  forall pg q (self : float8 pg) docs (mine : Document),
    lawful pg ->
    distance_to pg q mine = Some self ->
    List.length (filter (fun r => by_distance r (score pg q mine))
                        (map (score pg q) (docs ++ [mine])))
    = S (within pg q self docs).
Proof.
  intros pg q self docs mine Hpg Hmine.
  rewrite filter_length_map, filter_app, length_app. unfold within.
  cbn [filter]. unfold by_distance, score. cbn [snd]. rewrite Hmine.
  cbn [nulls_last_leb].
  destruct (float8_total Hpg self self) as [H|H]; rewrite H; cbn [List.length]; lia.
Qed.

Lemma document_accepted :
  forall d cont (v v' : vector),
    List.length v = EMBEDDING_DIM ->
    has_nul cont = false ->
    to_float4_vector v = Some v' ->
    documents_seq d < INT4_MAX ->
    document_refusal d cont v = None.
Proof.
  intros d cont v v' Hlen Hnul Hv Hseq. unfold document_refusal.
  rewrite Hlen, Nat.eqb_refl, Hnul, Hv; simpl.
  apply Z.ltb_lt in Hseq. now rewrite Hseq.
Qed.

(** C1, as the code has it. Take a state the service can reach and a
    content the database accepts: no NUL character, an embedding [v] of 768
    components within the range of float4, stored as [v'], and an id left
    in the sequence. Then [add_document] stores the content under a new id
    and a search for the same text succeeds. For a server whose [<=>] is a
    cosine distance, the new document is at the minimum distance: no stored
    document is closer to the query. It is among the hits whenever fewer
    than 3 of the documents stored before are at that distance, and it is
    the first hit whenever none of them is. *)
Theorem ingest_then_search :
  forall pg embed_query text w (v v' : vector),
    lawful pg ->
    cosine_metric pg ->
    reachable w ->
    embed_query text = Some v ->
    List.length v = EMBEDDING_DIM ->
    has_nul text = false ->
    to_float4_vector v = Some v' ->
    documents_seq (db w) < INT4_MAX ->
    let id := documents_seq (db w) + 1 in
    let self := cosine_distance pg v' v in
    let mine := mkHit id (Some text) self in
    let w1 := snd (add_document embed_query (mkDocCreate text) w) in
    fst (add_document embed_query (mkDocCreate text) w)
    = inr (mkStored id "Stored with embedding")
    /\ (forall d, In d (documents (db w1)) ->
                  nulls_last_leb pg (Some self) (distance_to pg v d) = true)
    /\ exists hits,
        fst (search_document pg embed_query (mkSearchQuery text) w1) = inr hits
        /\ ((within pg v self (documents (db w)) < 3)%nat -> In mine hits)
        /\ (within pg v self (documents (db w)) = 0%nat -> hd_error hits = Some mine).
Proof.
  intros pg embed_query text w v v' Hpg Hcos Hw E Hlen Hnul Hv Hseq id self mine w1.
  subst w1.
  destruct (@add_document_stored embed_query (mkDocCreate text) w v E
              (@document_accepted (db w) text v v' Hlen Hnul Hv Hseq)) as [u [Hu Hrun]].
  assert (u = v') by congruence. subst u.
  rewrite Hrun. cbn [fst snd content].
  split; [reflexivity|].
  set (new := mkDocument id (Some text) (Some v')).
  set (docs := documents (db w)).
  set (w1 := mkWorld _ _).
  assert (Hdocs : documents (db w1) = docs ++ [new]) by reflexivity.
  assert (Hnew : distance_to pg v new = Some self) by reflexivity.
  assert (Hmine : to_hit (score pg v new) = inr mine) by reflexivity.
  split.
  { intros d _. unfold distance_to.
    destruct (doc_embedding d) as [e|]; simpl; [|reflexivity].
    now apply (distance_self_nearest Hcos). }
  assert (Hpaired : Forall (fun d => paired d = true) (docs ++ [new])).
  { apply Forall_app. split; [now apply reachable_paired|].
    constructor; [|constructor]. unfold paired; simpl.
    rewrite (to_float4_vector_length _ Hv). now apply Nat.eqb_eq. }
  destruct (@to_hits_paired pg v (ranking pg v (docs ++ [new])) (docs ++ [new]) Hpaired)
    as [hits Hh].
  { intros r Hr. now apply (ranking_incl Hpg) in Hr. }
  exists hits.
  rewrite (@search_document_ranked pg embed_query (mkSearchQuery text) w1 v E Hlen).
  cbn [fst]. rewrite Hdocs, Hh.
  split; [reflexivity|].
  apply to_hits_inr in Hh.
  set (full := order_by pg (@by_distance pg) (map (score pg v) (docs ++ [new]))) in *.
  assert (Hfull : ranking pg v (docs ++ [new]) = limit 3 full) by reflexivity.
  assert (Hsorted : StronglySorted (fun a b => by_distance a b = true) full).
  { apply (order_by_sorted Hpg);
      [now apply by_distance_total | now apply by_distance_trans]. }
  assert (Hperm : Permutation full (map (score pg v) (docs ++ [new])))
    by apply (order_by_perm Hpg).
  assert (Hin : In (score pg v new) full).
  { eapply Permutation_in; [apply Permutation_sym; exact Hperm|].
    apply in_map. apply in_or_app. right. now left. }
  assert (Hcount : List.length (filter (fun r => by_distance r (score pg v new)) full)
                   = S (within pg v self docs)).
  { rewrite (filter_length_perm _ Hperm). now apply within_count. }
  split.
  - intros Hfew.
    assert (Hrank : In (score pg v new) (ranking pg v (docs ++ [new]))).
    { rewrite Hfull.
      apply (limit_keeps_close (by_distance_total Hpg) Hsorted); [exact Hin|].
      rewrite Hcount. lia. }
    destruct (Forall2_in_left _ Hh Hrank) as [h [Hhin Hto]].
    rewrite Hmine in Hto. injection Hto as <-. exact Hhin.
  - intros Hnone.
    assert (Hhead : hd_error full = Some (score pg v new)).
    { apply (sorted_head_closest (by_distance_total Hpg) Hsorted Hin).
      intros y Hy Hle.
      apply (Permutation_in _ Hperm) in Hy. rewrite map_app in Hy.
      apply in_app_or in Hy. destruct Hy as [Hy|[Hy|[]]]; [|now symmetry].
      apply in_map_iff in Hy. destruct Hy as [d [<- Hd]].
      exfalso.
      assert (Hfalse : nulls_last_leb pg (distance_to pg v d) (Some self) = false).
      { exact (filter_length_zero
                 (fun d => nulls_last_leb pg (distance_to pg v d) (Some self))
                 docs d Hnone Hd). }
      unfold by_distance, score in Hle. cbn [snd] in Hle.
      rewrite Hnew in Hle. congruence. }
    rewrite Hfull in Hh. destruct full as [|r full']; [discriminate|].
    injection Hhead as ->. unfold limit in Hh. cbn [firstn] in Hh.
    inversion Hh as [|? h ? hits' Hto Hrest]; subst.
    rewrite Hmine in Hto. injection Hto as <-. reflexivity.
Qed.

Lemma ingest_then_search_witness :
  let v := firstn EMBEDDING_DIM (codes "owl" ++ repeat 0%Q EMBEDDING_DIM) in
  let id := documents_seq (db world_animals) + 1 in
  let self := cosine_distance pg_keeping_ties v v in
  let mine := mkHit id (Some "owl"%string) self in
  let w1 := snd (add_document embed_codes (mkDocCreate "owl") world_animals) in
  within pg_keeping_ties v self (documents (db world_animals)) = 0%nat
  /\ fst (add_document embed_codes (mkDocCreate "owl") world_animals)
     = inr (mkStored id "Stored with embedding")
  /\ (forall d, In d (documents (db w1)) ->
                nulls_last_leb pg_keeping_ties (Some self)
                               (distance_to pg_keeping_ties v d) = true)
  /\ exists hits,
      fst (search_document pg_keeping_ties embed_codes (mkSearchQuery "owl") w1)
      = inr hits
      /\ ((within pg_keeping_ties v self (documents (db world_animals)) < 3)%nat ->
          In mine hits)
      /\ (within pg_keeping_ties v self (documents (db world_animals)) = 0%nat ->
          hd_error hits = Some mine).
Proof.
  intros v id self mine w1. split; [vm_compute; reflexivity|].
  apply (@ingest_then_search pg_keeping_ties embed_codes "owl" world_animals v v).
  - exact pg_keeping_ties_lawful.
  - exact pg_keeping_ties_metric.
  - apply after_adding_reachable.
  - reflexivity.
  - vm_compute. reflexivity.
  - reflexivity.
  - vm_compute. reflexivity.
  - vm_compute. reflexivity.
Defined.

(** C1 as stated fails: after the same text was stored three times, storing
    it once more and searching for it returns the three older documents, all
    at distance 0, and not the one just stored. *)
Lemma ingested_document_crowded_out :
  lawful pg_keeping_ties
  /\ reachable (world_cats 3)
  /\ fst (add_document embed_codes (mkDocCreate "cat") (world_cats 3))
     = inr (mkStored 4 "Stored with embedding")
  /\ fst (search_document pg_keeping_ties embed_codes (mkSearchQuery "cat")
            (snd (add_document embed_codes (mkDocCreate "cat") (world_cats 3))))
     = inr (hits_cats_kept 3)
  /\ map (@hit_distance _) (hits_cats_kept 3) = [0%Q; 0%Q; 0%Q]
  /\ ~ In 4 (map (@hit_id _) (hits_cats_kept 3)).
Proof.
  split; [exact pg_keeping_ties_lawful|].
  split; [apply after_adding_reachable|].
  split; [vm_compute; reflexivity|].
  split; [vm_compute; reflexivity|].
  split; [reflexivity|].
  simpl. intros [H|[H|[H|[]]]]; discriminate H.
Qed.

(* ================================================================== *)
(** ** The items endpoints *)
(* ================================================================== *)

Lemma find_item_after_insert :
  forall (its : list Item) id nm descr,
    exists it,
      find (fun x => item_id x =? id) (its ++ [mkItem id nm descr]) = Some it
      /\ item_id it = id
      /\ ((forall x, In x its -> item_id x <> id) -> it = mkItem id nm descr).
Proof.
  induction its as [|x its IH]; intros id nm descr; simpl.
  - rewrite Z.eqb_refl. eexists. repeat split.
  - destruct (item_id x =? id) eqn:E.
    + apply Z.eqb_eq in E. exists x. split; [reflexivity|]. split; [exact E|].
      intros Hfresh. exfalso. apply (Hfresh x); [now left|exact E].
    + destruct (IH id nm descr) as [it [Hfind [Hid Hnew]]].
      exists it. split; [exact Hfind|]. split; [exact Hid|].
      intros Hfresh. apply Hnew. intros y Hy. apply Hfresh. now right.
Qed.

Lemma flush_item_refused :
  forall d nm descr e,
    item_refusal d nm descr = Some e ->
    flush [NewItem (Some nm) (Some descr)] d = inl e.
Proof.
  intros d nm descr e. unfold item_refusal, flush, flush_one, opt_bind_text,
    opt_bind_varchar, bind_string, nextval.
  destruct (has_nul descr); simpl; [congruence|].
  destruct (has_nul nm); simpl; [congruence|].
  destruct (bind_varchar NAME_MAX nm); simpl; [congruence|].
  destruct (items_seq d <? INT4_MAX); simpl; congruence.
Qed.

Lemma flush_item_stored :
  forall d nm descr,
    item_refusal d nm descr = None ->
    exists nm',
      bind_varchar NAME_MAX nm = inr nm'
      /\ has_nul nm = false /\ has_nul descr = false
      /\ items_seq d < INT4_MAX
      /\ flush [NewItem (Some nm) (Some descr)] d
         = inr (item_inserted d nm' descr, [items_seq d + 1]).
Proof.
  intros d nm descr. unfold item_refusal, flush, flush_one, opt_bind_text,
    opt_bind_varchar, bind_string, nextval, item_inserted.
  destruct (has_nul descr); simpl; [discriminate|].
  destruct (has_nul nm); simpl; [discriminate|].
  destruct (bind_varchar NAME_MAX nm) as [e|nm']; simpl; [discriminate|].
  destruct (items_seq d <? INT4_MAX) eqn:Es; simpl; [|discriminate].
  intros _. exists nm'. apply Z.ltb_lt in Es. repeat split; assumption.
Qed.

Lemma create_item_refused :
  forall item w e,
    item_refusal (db w) (name item) (description item) = Some e ->
    create_item item w = (inl e, mkWorld (db w) (trace w ++ [SessionOpened])).
Proof.
  intros item w e H.
  pose proof (flush_item_refused _ _ _ H) as Hf.
  unfold create_item, SessionLocal, commit, read_db, bind, emit, ret, raise.
  cbn -[flush]. rewrite Hf. reflexivity.
Qed.

Lemma create_item_stored :
  forall item w,
    item_refusal (db w) (name item) (description item) = None ->
    exists nm it,
      bind_varchar NAME_MAX (name item) = inr nm
      /\ create_item item w =
         (inr it,
          mkWorld (item_inserted (db w) nm (description item))
                  (trace w ++ [SessionOpened; Committed; SessionClosed]))
      /\ item_id it = items_seq (db w) + 1
      /\ ((forall x, In x (items (db w)) -> item_id x <> items_seq (db w) + 1) ->
          it = mkItem (items_seq (db w) + 1) (Some nm) (Some (description item))).
Proof.
  intros item w H.
  destruct (flush_item_stored _ _ _ H) as [nm [Hnm [_ [_ [_ Hf]]]]].
  destruct (find_item_after_insert (items (db w)) (items_seq (db w) + 1)
                                   (Some nm) (Some (description item)))
    as [it [Hfind [Hid Hnew]]].
  exists nm, it. split; [exact Hnm|]. split; [|split; assumption].
  unfold create_item, SessionLocal, commit, refresh_item, close, read_db, write_db,
    bind, emit, ret, raise.
  cbn -[flush]. rewrite Hf. cbn. unfold find_item; cbn. rewrite Hfind; cbn.
  unfold item_inserted. repeat rewrite <- app_assoc. reflexivity.
Qed.

Lemma item_accepted :
  forall d nm descr,
    (String.length nm <= NAME_MAX)%nat ->
    has_nul nm = false -> has_nul descr = false ->
    items_seq d < INT4_MAX ->
    item_refusal d nm descr = None /\ bind_varchar NAME_MAX nm = inr nm.
Proof.
  intros d nm descr Hlen Hnm Hdescr Hseq.
  assert (Hb : bind_varchar NAME_MAX nm = inr nm).
  { unfold bind_varchar. apply Nat.leb_le in Hlen. now rewrite Hlen. }
  split; [|exact Hb]. unfold item_refusal. rewrite Hdescr, Hnm, Hb.
  apply Z.ltb_lt in Hseq. now rewrite Hseq.
Qed.

Lemma delete_item_found :
  forall wanted w it,
    find_item wanted (db w) = Some it ->
    delete_item wanted w =
    (inr deleted_body,
     mkWorld (item_deleted (db w) (item_id it))
             (trace w ++ [SessionOpened; Committed; SessionClosed])).
Proof.
  intros wanted w it H.
  unfold delete_item, SessionLocal, commit, close, read_db, write_db,
    bind, emit, ret, raise; simpl.
  rewrite H; simpl. unfold item_deleted. repeat rewrite <- app_assoc. reflexivity.
Qed.

Lemma find_item_present :
  forall wanted d,
    In wanted (map item_id (items d)) ->
    exists it, find_item wanted d = Some it /\ item_id it = wanted /\ In it (items d).
Proof.
  intros wanted d H. unfold find_item.
  destruct (find (fun it => item_id it =? wanted) (items d)) as [it|] eqn:E.
  - apply find_some in E. destruct E as [Hin Heq]. apply Z.eqb_eq in Heq.
    exists it. repeat split; assumption.
  - apply in_map_iff in H. destruct H as [x [Hx Hin]].
    apply (find_none _ _ E) in Hin. rewrite Hx, Z.eqb_refl in Hin. discriminate.
Qed.

Lemma bind_varchar_short :
  forall n s, (String.length s <= n)%nat -> bind_varchar n s = inr s.
Proof.
  intros n s H. unfold bind_varchar.
  apply Nat.leb_le in H. rewrite H. reflexivity.
Qed.

Lemma bind_varchar_long :
  forall n s,
    (n < String.length s)%nat -> all_spaces (drop n s) = false ->
    bind_varchar n s = inl (ValueTooLong n).
Proof.
  intros n s H Hsp. unfold bind_varchar.
  apply Nat.leb_gt in H. rewrite H, Hsp. reflexivity.
Qed.

(** What a request does to the items and their sequence. *)
Lemma serve_items :
  forall pg embed_query r w,
    (items (db (serve pg embed_query r w)) = items (db w)
     /\ items_seq (db (serve pg embed_query r w)) = items_seq (db w))
    \/ (exists nm descr,
           db (serve pg embed_query r w) = item_inserted (db w) nm descr)
    \/ (exists id, db (serve pg embed_query r w) = item_deleted (db w) id).
Proof.
  intros pg embed_query r w. destruct r as [item| |wanted|doc|payload]; simpl.
  - destruct (item_refusal (db w) (name item) (description item)) as [e|] eqn:E.
    + left. rewrite (@create_item_refused item w e E). split; reflexivity.
    + right. left. destruct (@create_item_stored item w E) as [nm [it [_ [-> _]]]].
      exists nm, (description item). reflexivity.
  - left. split; reflexivity.
  - destruct (find_item wanted (db w)) as [it|] eqn:E.
    + right. right. rewrite (delete_item_found _ w E). eexists. reflexivity.
    + left. unfold delete_item, SessionLocal, read_db, bind, emit, ret; simpl.
      rewrite E. split; reflexivity.
  - left. destruct (add_document_outcome embed_query doc w)
      as [[e Hrun]|[v [v' [_ [_ [_ Hrun]]]]]]; rewrite Hrun; split; reflexivity.
  - left. rewrite search_document_db. split; reflexivity.
Qed.

Lemma item_inserted_keyed :
  forall d nm descr, items_keyed d -> items_keyed (item_inserted d nm descr).
Proof.
  intros d nm descr [Hnd [Hrange H0]]. unfold items_keyed, item_inserted; simpl.
  rewrite Forall_forall in Hrange. split; [|split].
  - rewrite map_app; simpl.
    apply (Permutation_NoDup (l := (items_seq d + 1) :: map item_id (items d))).
    + apply Permutation_cons_append.
    + constructor; [|exact Hnd].
      intros Hin. apply in_map_iff in Hin. destruct Hin as [x [Hx Hin]].
      specialize (Hrange x Hin). lia.
  - apply Forall_app. split.
    + apply Forall_forall. intros x Hx. specialize (Hrange x Hx). lia.
    + constructor; [simpl; lia|constructor].
  - lia.
Qed.

Lemma NoDup_map_filter :
  forall A B (g : A -> B) (f : A -> bool) l,
    NoDup (map g l) -> NoDup (map g (filter f l)).
Proof.
  intros A B g f l. induction l as [|a l IH]; simpl; intros H.
  - constructor.
  - inversion H as [|? ? Hnotin Hnd]; subst.
    destruct (f a); simpl; [|now apply IH].
    constructor; [|now apply IH].
    intros Hin. apply Hnotin. apply in_map_iff in Hin.
    destruct Hin as [x [Hx Hin]]. apply filter_In in Hin.
    apply in_map_iff. exists x. split; [exact Hx|apply Hin].
Qed.

Lemma item_deleted_keyed :
  forall d id, items_keyed d -> items_keyed (item_deleted d id).
Proof.
  intros d id [Hnd [Hrange H0]]. unfold items_keyed, item_deleted; simpl.
  split; [|split].
  - now apply NoDup_map_filter.
  - rewrite Forall_forall in *. intros x Hx. apply filter_In in Hx.
    apply Hrange. apply Hx.
  - exact H0.
Qed.

Lemma reachable_items_keyed :
  forall w, reachable w -> items_keyed (db w).
Proof.
  induction 1 as [|pg embed_query r w Hw IH].
  - repeat split; simpl; try constructor; lia.
  - destruct (serve_items pg embed_query r w)
      as [[Hitems Hseq]|[[nm [descr Hdb]]|[id Hdb]]].
    + destruct IH as [Hnd [Hrange H0]]. unfold items_keyed.
      rewrite Hitems, Hseq. repeat split; assumption.
    + rewrite Hdb. now apply item_inserted_keyed.
    + rewrite Hdb. now apply item_deleted_keyed.
Qed.

Lemma reachable_documents_dense :
  forall w, reachable w -> documents_dense (db w).
Proof.
  induction 1 as [|pg embed_query r w Hw IH].
  - split; reflexivity.
  - destruct IH as [Hids Hseq].
    assert (Hdseq : documents (db (serve pg embed_query r w)) = documents (db w) ->
                    documents_seq (db (serve pg embed_query r w)) = documents_seq (db w)).
    { destruct r as [item| |wanted|doc|payload]; simpl; intros Hsame.
      - apply create_item_documents.
      - reflexivity.
      - apply delete_item_documents.
      - destruct (add_document_outcome embed_query doc w)
          as [[e Hrun]|[v [v' [_ [_ [_ Hrun]]]]]]; rewrite Hrun in *.
        + reflexivity.
        + simpl in Hsame. apply (f_equal (@List.length _)) in Hsame.
          rewrite length_app in Hsame. simpl in Hsame. lia.
      - now rewrite search_document_db. }
    destruct (serve_documents pg embed_query r w) as [E|[cont [v [Hlen E]]]].
    + unfold documents_dense. rewrite (Hdseq E), E. now split.
    + assert (Hseq' : documents_seq (db (serve pg embed_query r w))
                      = documents_seq (db w) + 1).
      { destruct r as [item| |wanted|doc|payload]; simpl in *.
        - destruct (create_item_documents item w) as [Hd _]. rewrite Hd in E.
          apply (f_equal (@List.length _)) in E. rewrite length_app in E.
          simpl in E. lia.
        - apply (f_equal (@List.length _)) in E. rewrite length_app in E.
          simpl in E. lia.
        - destruct (delete_item_documents wanted w) as [Hd _]. rewrite Hd in E.
          apply (f_equal (@List.length _)) in E. rewrite length_app in E.
          simpl in E. lia.
        - destruct (add_document_outcome embed_query doc w)
            as [[e Hrun]|[u [u' [_ [_ [_ Hrun]]]]]]; rewrite Hrun in *.
          + simpl in E. apply (f_equal (@List.length _)) in E.
            rewrite length_app in E. simpl in E. lia.
          + reflexivity.
        - rewrite search_document_db in E.
          apply (f_equal (@List.length _)) in E. rewrite length_app in E.
          simpl in E. lia. }
      unfold documents_dense. rewrite Hseq', E.
      rewrite map_app, length_app; simpl. rewrite Hids, Hseq.
      rewrite Nat.add_1_r, seq_S, map_app; simpl. split.
      * f_equal. f_equal. lia.
      * lia.
Qed.

Lemma reachable_one_item : reachable world_one_item.
Proof.
  exact (reachable_serve pg_keeping_ties embed_codes
           (PostItems (mkItemCreate "pen" "blue")) reachable_initial).
Qed.

Lemma fresh_item_id :
  forall w, reachable w ->
    forall it, In it (items (db w)) -> item_id it < items_seq (db w) + 1.
Proof.
  intros w Hw it Hin. destruct (reachable_items_keyed Hw) as [_ [Hrange _]].
  rewrite Forall_forall in Hrange. specialize (Hrange it Hin). lia.
Qed.

Lemma filter_out_absent :
  forall (its : list Item) id,
    (forall it, In it its -> item_id it <> id) ->
    filter (fun it => negb (item_id it =? id)) its = its.
Proof.
  induction its as [|x its IH]; intros id H; simpl.
  - reflexivity.
  - assert (Hx : (item_id x =? id) = false)
      by (apply Z.eqb_neq; apply H; now left).
    rewrite Hx; simpl. f_equal. apply IH. intros it Hit. apply H. now right.
Qed.

Lemma filter_out_one :
  forall (its : list Item) id,
    NoDup (map item_id its) -> In id (map item_id its) ->
    S (List.length (filter (fun it => negb (item_id it =? id)) its)) = List.length its.
Proof.
  induction its as [|x its IH]; intros id Hnd Hin; simpl in *.
  - destruct Hin.
  - inversion Hnd as [|? ? Hnotin Hnd']; subst.
    destruct (item_id x =? id) eqn:E; simpl.
    + apply Z.eqb_eq in E. f_equal. f_equal.
      apply filter_out_absent. intros it Hit Heq. apply Hnotin.
      rewrite E, <- Heq. now apply in_map.
    + apply Z.eqb_neq in E. destruct Hin as [Hin|Hin]; [contradiction|].
      f_equal. now apply IH.
Qed.

(** X1. On a state the service can reach, [create_item] with a name of at
    most 100 characters, no NUL character in name or description and an id
    left in the sequence returns the row it stored: a new id above every id
    in the table, and the name and description of the request. The row goes
    to the end of the table in one commit, and [get_items] then lists the
    old rows followed by it. *)
Theorem create_item_returns_created :
  forall item w,
    reachable w ->
    (String.length (name item) <= NAME_MAX)%nat ->
    has_nul (name item) = false ->
    has_nul (description item) = false ->
    items_seq (db w) < INT4_MAX ->
    let obj := mkItem (items_seq (db w) + 1) (Some (name item)) (Some (description item)) in
    fst (create_item item w) = inr obj
    /\ (forall it, In it (items (db w)) -> item_id it < item_id obj)
    /\ items (db (snd (create_item item w))) = items (db w) ++ [obj]
    /\ commits (trace (snd (create_item item w))) = S (commits (trace w))
    /\ fst (get_items (snd (create_item item w))) = inr (items (db w) ++ [obj]).
Proof.
  intros item w Hw Hlen Hnm Hdescr Hseq obj.
  destruct (@item_accepted (db w) (name item) (description item) Hlen Hnm Hdescr Hseq)
    as [Hacc Hb].
  destruct (@create_item_stored item w Hacc) as [nm [it [Hnm' [Hrun [_ Hnew]]]]].
  assert (nm = name item) by congruence. subst nm.
  assert (Hit : it = obj).
  { apply Hnew. intros x Hx. pose proof (fresh_item_id Hw x Hx). lia. }
  subst it. rewrite Hrun; simpl.
  split; [reflexivity|]. split; [now apply fresh_item_id|].
  split; [reflexivity|]. split; [|reflexivity].
  rewrite commits_app; simpl. lia.
Qed.

Lemma create_item_returns_created_witness :
  let item := mkItemCreate "ink" "black" in
  let obj := mkItem (items_seq (db world_one_item) + 1) (Some "ink"%string)
                    (Some "black"%string) in
  fst (create_item item world_one_item) = inr obj
  /\ (forall it, In it (items (db world_one_item)) -> item_id it < item_id obj)
  /\ items (db (snd (create_item item world_one_item))) = items (db world_one_item) ++ [obj]
  /\ commits (trace (snd (create_item item world_one_item)))
     = S (commits (trace world_one_item))
  /\ fst (get_items (snd (create_item item world_one_item)))
     = inr (items (db world_one_item) ++ [obj]).
Proof.
  intros item obj.
  apply (@create_item_returns_created item world_one_item).
  - exact reachable_one_item.
  - vm_compute. repeat constructor.
  - reflexivity.
  - reflexivity.
  - vm_compute. reflexivity.
Defined.

(** X2. A name longer than the 100 characters of the column, with more than
    spaces beyond them, makes [create_item] end in an error (the driver's
    when the name or the description holds a NUL character, the column's
    otherwise): no row is stored, nothing is committed, the database is as
    it was. *)
Theorem create_item_name_too_long :
  forall item w,
    (NAME_MAX < String.length (name item))%nat ->
    all_spaces (drop NAME_MAX (name item)) = false ->
    fst (create_item item w)
    = inl (if has_nul (description item) || has_nul (name item)
           then NulCharacter else ValueTooLong NAME_MAX)
    /\ db (snd (create_item item w)) = db w
    /\ commits (trace (snd (create_item item w))) = commits (trace w).
Proof.
  intros item w Hlen Hsp.
  assert (Hr : item_refusal (db w) (name item) (description item)
               = Some (if has_nul (description item) || has_nul (name item)
                       then NulCharacter else ValueTooLong NAME_MAX)).
  { unfold item_refusal.
    destruct (has_nul (description item)); [reflexivity|].
    destruct (has_nul (name item)); [reflexivity|]. simpl.
    now rewrite (@bind_varchar_long NAME_MAX (name item) Hlen Hsp). }
  rewrite (@create_item_refused item w _ Hr); simpl.
  rewrite commits_app; simpl. repeat split; lia.
Qed.

Lemma create_item_name_too_long_witness :
  fst (create_item (mkItemCreate long_name "x") world_one_item)
  = inl (if has_nul "x" || has_nul long_name then NulCharacter else ValueTooLong NAME_MAX)
  /\ db (snd (create_item (mkItemCreate long_name "x") world_one_item)) = db world_one_item
  /\ commits (trace (snd (create_item (mkItemCreate long_name "x") world_one_item)))
     = commits (trace world_one_item).
Proof.
  apply (@create_item_name_too_long (mkItemCreate long_name "x") world_one_item).
  - vm_compute. repeat constructor.
  - vm_compute. reflexivity.
Defined.



(** X4. Primary keys of documents: no endpoint deletes a document, so in
    every state the service can reach the ids of the stored documents are
    1, 2, ..., n in the order of the table, and the sequence stands at n. *)
Theorem document_ids_dense :
  forall w,
    reachable w ->
    map doc_id (documents (db w))
    = map Z.of_nat (seq 1 (List.length (documents (db w))))
    /\ documents_seq (db w) = Z.of_nat (List.length (documents (db w))).
Proof.
  intros w Hw. exact (reachable_documents_dense Hw).
Qed.

Lemma document_ids_dense_witness :
  map doc_id (documents (db world_four))
  = map Z.of_nat (seq 1 (List.length (documents (db world_four))))
  /\ documents_seq (db world_four) = Z.of_nat (List.length (documents (db world_four))).
Proof.
  apply (@document_ids_dense world_four). apply after_adding_reachable.
Defined.

(** X5. Documents are never changed or removed: whatever the request and
    however it ends, the documents stored before it are the beginning of
    the documents stored after it, followed by at most one new row. *)
Theorem documents_only_grow :
  forall pg embed_query r w,
    exists added,
      documents (db (serve pg embed_query r w)) = documents (db w) ++ added
      /\ (List.length added <= 1)%nat.
Proof.
  intros pg embed_query r w.
  destruct (serve_documents pg embed_query r w) as [E|[cont [v [_ E]]]].
  - exists []. rewrite E, app_nil_r. split; [reflexivity|simpl; lia].
  - eexists. split; [exact E|simpl; lia].
Qed.

(** X6. Deleting an id that is in the items table returns the [Item
    deleted] body, removes the row with that id and only that row (the
    others stay, in their order), commits once and leaves the documents
    alone. *)
Theorem delete_item_removes :
  forall wanted w,
    reachable w ->
    In wanted (map item_id (items (db w))) ->
    fst (delete_item wanted w) = inr deleted_body
    /\ items (db (snd (delete_item wanted w)))
       = filter (fun it => negb (item_id it =? wanted)) (items (db w))
    /\ ~ In wanted (map item_id (items (db (snd (delete_item wanted w)))))
    /\ S (List.length (items (db (snd (delete_item wanted w)))))
       = List.length (items (db w))
    /\ documents (db (snd (delete_item wanted w))) = documents (db w)
    /\ commits (trace (snd (delete_item wanted w))) = S (commits (trace w)).
Proof.
  intros wanted w Hw Hin.
  destruct (find_item_present _ _ Hin) as [it [Hfind [Hid _]]].
  rewrite (delete_item_found _ w Hfind); simpl. rewrite Hid.
  split; [reflexivity|]. split; [reflexivity|]. split; [|split; [|split]].
  - intros H. apply in_map_iff in H. destruct H as [x [Hx Hxin]].
    apply filter_In in Hxin. destruct Hxin as [_ Hne].
    apply negb_true_iff, Z.eqb_neq in Hne. contradiction.
  - apply filter_out_one; [|exact Hin]. apply (reachable_items_keyed Hw).
  - reflexivity.
  - rewrite commits_app; simpl. lia.
Qed.

Lemma delete_item_removes_witness :
  fst (delete_item 1 world_one_item) = inr deleted_body
  /\ items (db (snd (delete_item 1 world_one_item)))
     = filter (fun it => negb (item_id it =? 1)) (items (db world_one_item))
  /\ ~ In 1 (map item_id (items (db (snd (delete_item 1 world_one_item)))))
  /\ S (List.length (items (db (snd (delete_item 1 world_one_item)))))
     = List.length (items (db world_one_item))
  /\ documents (db (snd (delete_item 1 world_one_item))) = documents (db world_one_item)
  /\ commits (trace (snd (delete_item 1 world_one_item)))
     = S (commits (trace world_one_item)).
Proof.
  apply (@delete_item_removes 1 world_one_item).
  - exact reachable_one_item.
  - vm_compute. left. reflexivity.
Defined.

Lemma delete_item_missing :
  forall wanted w,
    find_item wanted (db w) = None ->
    delete_item wanted w
    = (inr not_found_body, mkWorld (db w) (trace w ++ [SessionOpened])).
Proof.
  intros wanted w H.
  unfold delete_item, SessionLocal, read_db, bind, emit, ret; simpl.
  rewrite H. reflexivity.
Qed.

(** X7. Deleting twice: once an id was deleted, deleting it again returns
    the [Item not found] body and changes nothing. *)
Theorem delete_item_twice :
  forall wanted w,
    In wanted (map item_id (items (db w))) ->
    fst (delete_item wanted (snd (delete_item wanted w))) = inr not_found_body
    /\ db (snd (delete_item wanted (snd (delete_item wanted w))))
       = db (snd (delete_item wanted w)).
Proof.
  intros wanted w Hin.
  destruct (find_item_present _ _ Hin) as [it [Hfind [Hid _]]].
  rewrite (delete_item_found _ w Hfind); simpl. rewrite Hid.
  set (w1 := mkWorld _ _).
  assert (Hgone : find_item wanted (db w1) = None).
  { apply find_item_absent. simpl. intros H.
    apply in_map_iff in H. destruct H as [x [Hx Hxin]].
    apply filter_In in Hxin. destruct Hxin as [_ Hne].
    apply negb_true_iff, Z.eqb_neq in Hne. contradiction. }
  rewrite (@delete_item_missing wanted w1 Hgone). split; reflexivity.
Qed.

Lemma delete_item_twice_witness :
  fst (delete_item 1 (snd (delete_item 1 world_one_item))) = inr not_found_body
  /\ db (snd (delete_item 1 (snd (delete_item 1 world_one_item))))
     = db (snd (delete_item 1 world_one_item)).
Proof.
  apply (@delete_item_twice 1 world_one_item).
  vm_compute. left. reflexivity.
Defined.

(** X8. Create, then delete: for a request [create_item] accepts (a name
    of at most 100 characters, no NUL character, an id left in the
    sequence), deleting the id it returned gives back the items table as it
    was before the two requests, while the sequence has moved on, so the
    next item gets another id. *)
Theorem create_then_delete :
  forall item w,
    reachable w ->
    (String.length (name item) <= NAME_MAX)%nat ->
    has_nul (name item) = false ->
    has_nul (description item) = false ->
    items_seq (db w) < INT4_MAX ->
    let id := items_seq (db w) + 1 in
    let w2 := snd (delete_item id (snd (create_item item w))) in
    fst (delete_item id (snd (create_item item w))) = inr deleted_body
    /\ items (db w2) = items (db w)
    /\ items_seq (db w2) = id
    /\ documents (db w2) = documents (db w).
Proof.
  intros item w Hw Hlen Hnm Hdescr Hseq id w2. subst w2.
  destruct (@item_accepted (db w) (name item) (description item) Hlen Hnm Hdescr Hseq)
    as [Hacc _].
  destruct (@create_item_stored item w Hacc) as [nm [it [_ [Hrun _]]]].
  rewrite Hrun; simpl.
  set (w1 := mkWorld _ _).
  assert (Hin : In id (map item_id (items (db w1)))).
  { simpl. rewrite map_app. apply in_or_app. right. now left. }
  destruct (find_item_present _ _ Hin) as [it' [Hfind [Hid _]]].
  rewrite (delete_item_found _ w1 Hfind); simpl. rewrite Hid.
  split; [reflexivity|]. split; [|split; reflexivity].
  rewrite filter_app; simpl. fold id. rewrite Z.eqb_refl; simpl.
  rewrite app_nil_r. apply filter_out_absent.
  intros x Hx. pose proof (fresh_item_id Hw x Hx). unfold id. lia.
Qed.

Lemma create_then_delete_witness :
  let item := mkItemCreate "ink" "black" in
  let id := items_seq (db world_one_item) + 1 in
  let w2 := snd (delete_item id (snd (create_item item world_one_item))) in
  fst (delete_item id (snd (create_item item world_one_item))) = inr deleted_body
  /\ items (db w2) = items (db world_one_item)
  /\ items_seq (db w2) = id
  /\ documents (db w2) = documents (db world_one_item).
Proof.
  intros item.
  apply (@create_then_delete item world_one_item).
  - exact reachable_one_item.
  - vm_compute. repeat constructor.
  - reflexivity.
  - reflexivity.
  - vm_compute. reflexivity.
Defined.

Lemma sessions_opened_app :
  forall tr1 tr2,
    sessions_opened (tr1 ++ tr2) = (sessions_opened tr1 + sessions_opened tr2)%nat.
Proof.
  induction tr1 as [|e tr1 IH]; intros tr2; simpl.
  - reflexivity.
  - destruct e; simpl; rewrite IH; reflexivity.
Qed.

Lemma sessions_closed_app :
  forall tr1 tr2,
    sessions_closed (tr1 ++ tr2) = (sessions_closed tr1 + sessions_closed tr2)%nat.
Proof.
  induction tr1 as [|e tr1 IH]; intros tr2; simpl.
  - reflexivity.
  - destruct e; simpl; rewrite IH; reflexivity.
Qed.

Lemma serve_keeps_to_table :
  forall pg embed_query r w,
    match r with
    | PostItems _ | GetItems | DeleteItems _ =>
        documents (db (serve pg embed_query r w)) = documents (db w)
        /\ documents_seq (db (serve pg embed_query r w)) = documents_seq (db w)
        /\ embed_calls (trace (serve pg embed_query r w)) = embed_calls (trace w)
    | PostVectorAdd _ | PostVectorSearch _ =>
        items (db (serve pg embed_query r w)) = items (db w)
        /\ items_seq (db (serve pg embed_query r w)) = items_seq (db w)
    end.
Proof.
  intros pg embed_query r w. destruct r as [item| |wanted|doc|payload]; simpl.
  - destruct (create_item_documents item w) as [Hd Hs].
    split; [exact Hd|]. split; [exact Hs|].
    destruct (item_refusal (db w) (name item) (description item)) as [e|] eqn:E.
    + rewrite (@create_item_refused item w e E); simpl.
      rewrite embed_calls_app; simpl. apply app_nil_r.
    + destruct (@create_item_stored item w E) as [nm [it [_ [-> _]]]]; simpl.
      rewrite embed_calls_app; simpl. apply app_nil_r.
  - split; [reflexivity|]. split; [reflexivity|].
    rewrite !embed_calls_app; simpl. now rewrite !app_nil_r.
  - destruct (delete_item_documents wanted w) as [Hd Hs].
    split; [exact Hd|]. split; [exact Hs|].
    destruct (find_item wanted (db w)) as [it|] eqn:E.
    + rewrite (delete_item_found _ w E); simpl.
      rewrite embed_calls_app; simpl. apply app_nil_r.
    + rewrite (delete_item_missing _ w E); simpl.
      rewrite embed_calls_app; simpl. apply app_nil_r.
  - destruct (add_document_outcome embed_query doc w)
      as [[e Hrun]|[v [v' [_ [_ [_ Hrun]]]]]]; rewrite Hrun; split; reflexivity.
  - rewrite search_document_db. split; reflexivity.
Qed.

(** X9. Each group of endpoints keeps to its own table. A request on
    [/items] leaves the documents and their sequence as they were and never
    calls the embedding provider; a request on [/vector] leaves the items
    and their sequence as they were. This holds however the request ends. *)
Theorem endpoints_keep_to_their_table :
  forall pg embed_query r w,
    match r with
    | PostItems _ | GetItems | DeleteItems _ =>
        documents (db (serve pg embed_query r w)) = documents (db w)
        /\ documents_seq (db (serve pg embed_query r w)) = documents_seq (db w)
        /\ embed_calls (trace (serve pg embed_query r w)) = embed_calls (trace w)
    | PostVectorAdd _ | PostVectorSearch _ =>
        items (db (serve pg embed_query r w)) = items (db w)
        /\ items_seq (db (serve pg embed_query r w)) = items_seq (db w)
    end.
Proof.
  intros pg embed_query r w. apply serve_keeps_to_table.
Qed.

Lemma fresh_document_id :
  forall w, reachable w ->
    forall d, In d (documents (db w)) -> doc_id d <> documents_seq (db w) + 1.
Proof.
  intros w Hw d Hd. destruct (reachable_documents_dense Hw) as [Hids Hseq].
  assert (Hin : In (doc_id d) (map doc_id (documents (db w)))) by now apply in_map.
  rewrite Hids in Hin. apply in_map_iff in Hin. destruct Hin as [n [Hn Hin]].
  apply in_seq in Hin. lia.
Qed.

Lemma find_document_fresh :
  forall (docs : list Document) new,
    (forall d, In d docs -> doc_id d <> doc_id new) ->
    find (fun doc => doc_id doc =? doc_id new) (docs ++ [new]) = Some new.
Proof.
  induction docs as [|x docs IH]; intros new H; simpl.
  - now rewrite Z.eqb_refl.
  - assert (Hx : (doc_id x =? doc_id new) = false)
      by (apply Z.eqb_neq; apply H; now left).
    rewrite Hx. apply IH. intros d Hd. apply H. now right.
Qed.

(** X10. Insert, then look up: on a state the service can reach with [n]
    documents and an id left in the sequence, when the content holds no NUL
    character and the provider answers it with a 768-vector [v] within the
    range of float4, [add_document] returns the id n + 1, and the row under
    that id is then the content with [v] as float4 stores it, every
    component rounded to the nearest float4; it is the last row of the
    table, written in one commit. *)
Theorem add_document_stores :
  forall embed_query doc w (v v' : vector),
    reachable w ->
    embed_query (content doc) = Some v ->
    List.length v = EMBEDDING_DIM ->
    has_nul (content doc) = false ->
    to_float4_vector v = Some v' ->
    documents_seq (db w) < INT4_MAX ->
    let id := Z.of_nat (S (List.length (documents (db w)))) in
    let row := mkDocument id (Some (content doc)) (Some v') in
    fst (add_document embed_query doc w) = inr (mkStored id "Stored with embedding")
    /\ find_document id (db (snd (add_document embed_query doc w))) = Some row
    /\ documents (db (snd (add_document embed_query doc w))) = documents (db w) ++ [row]
    /\ commits (trace (snd (add_document embed_query doc w))) = S (commits (trace w)).
Proof.
  intros embed_query doc w v v' Hw E Hlen Hnul Hv Hseq id row.
  destruct (reachable_documents_dense Hw) as [_ Hdense].
  assert (Hid : documents_seq (db w) + 1 = id) by (unfold id; lia).
  destruct (@add_document_stored embed_query doc w v E
              (@document_accepted (db w) (content doc) v v' Hlen Hnul Hv Hseq))
    as [u [Hu Hrun]].
  assert (u = v') by congruence. subst u.
  rewrite Hrun; simpl. rewrite Hid. fold row.
  split; [reflexivity|]. split; [|split; [reflexivity|]].
  - unfold find_document; simpl. rewrite Hid. fold row.
    apply (find_document_fresh (documents (db w)) row).
    intros d Hd. simpl. rewrite <- Hid. now apply fresh_document_id.
  - rewrite commits_app; simpl. lia.
Qed.

Lemma add_document_stores_witness :
  let v := firstn EMBEDDING_DIM (codes "owl" ++ repeat 0%Q EMBEDDING_DIM) in
  let id := Z.of_nat (S (List.length (documents (db world_animals)))) in
  let row := mkDocument id (Some "owl"%string) (Some v) in
  fst (add_document embed_codes (mkDocCreate "owl") world_animals)
  = inr (mkStored id "Stored with embedding")
  /\ find_document id (db (snd (add_document embed_codes (mkDocCreate "owl") world_animals)))
     = Some row
  /\ documents (db (snd (add_document embed_codes (mkDocCreate "owl") world_animals)))
     = documents (db world_animals) ++ [row]
  /\ commits (trace (snd (add_document embed_codes (mkDocCreate "owl") world_animals)))
     = S (commits (trace world_animals)).
Proof.
  intros v.
  apply (@add_document_stores embed_codes (mkDocCreate "owl") world_animals v v).
  - apply after_adding_reachable.
  - reflexivity.
  - vm_compute. reflexivity.
  - reflexivity.
  - vm_compute. reflexivity.
  - vm_compute. reflexivity.
Defined.

(** X11. [add_document] calls the embedding provider exactly once, with the
    content, however it ends; it commits once when it returns and not at
    all when it raises, and it closes its session only when it returns. *)
Theorem add_document_effects :
  forall embed_query doc w,
    let out := add_document embed_query doc w in
    let returned := match fst out with inr _ => 1%nat | inl _ => 0%nat end in
    embed_calls (trace (snd out)) = embed_calls (trace w) ++ [content doc]
    /\ commits (trace (snd out)) = (commits (trace w) + returned)%nat
    /\ sessions_opened (trace (snd out)) = S (sessions_opened (trace w))
    /\ sessions_closed (trace (snd out)) = (sessions_closed (trace w) + returned)%nat.
Proof.
  intros embed_query doc w.
  destruct (add_document_outcome embed_query doc w)
    as [[e Hrun]|[v [v' [_ [_ [_ Hrun]]]]]]; rewrite Hrun; simpl;
    rewrite embed_calls_app, commits_app, sessions_opened_app, sessions_closed_app;
    simpl; repeat split; lia.
Qed.

Lemma existsb_find :
  forall A (f : A -> bool) l,
    existsb f l = match find f l with Some _ => true | None => false end.
Proof.
  intros A f l. induction l as [|a l IH]; simpl.
  - reflexivity.
  - destruct (f a); [reflexivity|exact IH].
Qed.

(** X12. [delete_item] closes its session exactly when it found the item:
    the not-found branch returns before [db.close()], so every delete of a
    missing id returns its error body and leaves one more session open. *)
Theorem delete_item_session :
  forall wanted w,
    let out := delete_item wanted w in
    let found := existsb (fun it => item_id it =? wanted) (items (db w)) in
    fst out = inr (if found then deleted_body else not_found_body)
    /\ sessions_opened (trace (snd out)) = S (sessions_opened (trace w))
    /\ sessions_closed (trace (snd out))
       = (sessions_closed (trace w) + (if found then 1 else 0))%nat.
Proof.
  intros wanted w. simpl. rewrite existsb_find.
  fold (find_item wanted (db w)).
  destruct (find_item wanted (db w)) as [it|] eqn:E.
  - rewrite (delete_item_found _ w E); simpl.
    rewrite sessions_opened_app, sessions_closed_app; simpl.
    repeat split; lia.
  - rewrite (delete_item_missing _ w E); simpl.
    rewrite sessions_opened_app, sessions_closed_app; simpl.
    repeat split; lia.
Qed.

(* ================================================================== *)
(** ** More on the search *)
(* ================================================================== *)

Lemma sorted_app_le :
  forall A (le : A -> A -> Prop) l1 l2 a b,
    StronglySorted le (l1 ++ l2) -> In a l1 -> In b l2 -> le a b.
Proof.
  intros A le l1. induction l1 as [|x l1 IH]; intros l2 a b Hs Ha Hb.
  - destruct Ha.
  - simpl in Hs. inversion Hs as [|? ? Hs' Hall]; subst.
    destruct Ha as [<-|Ha].
    + rewrite Forall_forall in Hall. apply Hall. apply in_or_app. now right.
    + now apply (IH l2).
Qed.

Lemma to_hit_id :
  forall pg (r : Scored pg) h, to_hit r = inr h -> hit_id h = doc_id (fst r).
Proof.
  intros pg [d [x|]] h; unfold to_hit; simpl; intros H; [|discriminate].
  injection H as <-. reflexivity.
Qed.

Lemma to_hits_ids :
  forall pg (rs : list (Scored pg)) hits,
    Forall2 (fun r h => to_hit r = inr h) rs hits ->
    map (@hit_id _) hits = map (fun r => doc_id (fst r)) rs.
Proof.
  intros pg rs hits H. induction H as [|r h rs hits Hrh H IH]; simpl.
  - reflexivity.
  - rewrite IH, (@to_hit_id pg r h Hrh). reflexivity.
Qed.



(** X14. The hits are the closest documents: when a search returns, every
    stored document whose id is not among the hits is at least as far from
    the query as every hit. *)
Theorem search_document_returns_closest :
  forall pg embed_query payload w hits,
    lawful pg ->
    fst (search_document pg embed_query payload w) = inr hits ->
    exists v : vector,
      embed_query (query payload) = Some v
      /\ forall h d,
          In h hits ->
          In d (documents (db w)) ->
          ~ In (doc_id d) (map (@hit_id _) hits) ->
          nulls_last_leb pg (Some (hit_distance h)) (distance_to pg v d) = true.
Proof.
  intros pg embed_query payload w hits Hpg H.
  destruct (@search_document_inr pg embed_query payload w hits H) as [v [E [Hlen Hh]]].
  exists v. split; [exact E|]. intros h d Hin Hd Hout.
  apply to_hits_inr in Hh.
  set (full := order_by pg (@by_distance pg) (map (score pg v) (documents (db w)))) in *.
  assert (Hrank : ranking pg v (documents (db w)) = firstn 3 full) by reflexivity.
  rewrite Hrank in Hh.
  assert (Hsorted : StronglySorted (fun a b => by_distance a b = true)
                                   (firstn 3 full ++ skipn 3 full)).
  { rewrite firstn_skipn. apply (order_by_sorted Hpg);
      [now apply by_distance_total | now apply by_distance_trans]. }
  destruct (Forall2_in_right _ Hh Hin) as [r [Hr Hrh]].
  assert (Hrow : In (score pg v d) (firstn 3 full ++ skipn 3 full)).
  { rewrite firstn_skipn. eapply Permutation_in.
    - apply Permutation_sym. apply (order_by_perm Hpg).
    - now apply in_map. }
  apply in_app_or in Hrow. destruct Hrow as [Hfirst|Hrest].
  - exfalso. apply Hout.
    destruct (Forall2_in_left _ Hh Hfirst) as [h' [Hh' Hto]].
    pose proof (@to_hit_id pg _ _ Hto) as Hid. simpl in Hid.
    rewrite <- Hid. now apply in_map.
  - pose proof (sorted_app_le _ _ _ _ Hsorted Hr Hrest) as Hle.
    unfold by_distance in Hle. rewrite (@to_hit_distance pg _ _ Hrh) in Hle.
    exact Hle.
Qed.

Lemma search_document_returns_closest_witness :
  exists v : vector,
    embed_codes "cat"%string = Some v
    /\ forall h d,
        In h hits_animals ->
        In d (documents (db world_four)) ->
        ~ In (doc_id d) (map (@hit_id _) hits_animals) ->
        nulls_last_leb pg_keeping_ties (Some (hit_distance h))
                       (distance_to pg_keeping_ties v d) = true.
Proof.
  apply (@search_document_returns_closest pg_keeping_ties embed_codes
           (mkSearchQuery "cat") world_four hits_animals).
  - exact pg_keeping_ties_lawful.
  - vm_compute. reflexivity.
Defined.

(** X15. No document is returned twice: on a state the service can reach,
    the ids of the hits of a search are pairwise distinct. *)
Theorem search_document_hits_distinct :
  forall pg embed_query payload w hits,
    lawful pg ->
    reachable w ->
    fst (search_document pg embed_query payload w) = inr hits ->
    NoDup (map (@hit_id _) hits).
Proof.
  intros pg embed_query payload w hits Hpg Hw H.
  destruct (@search_document_inr pg embed_query payload w hits H) as [v [E [Hlen Hh]]].
  apply to_hits_inr in Hh. rewrite (@to_hits_ids pg _ _ Hh).
  unfold ranking, limit. rewrite <- firstn_map.
  set (ids := map _ (order_by pg _ _)).
  assert (Hnd : NoDup ids).
  { apply (Permutation_NoDup (l := map doc_id (documents (db w)))).
    - unfold ids. apply Permutation_sym.
      rewrite <- (map_map (score pg v) (fun r => doc_id (fst r))).
      apply Permutation_map. apply (order_by_perm Hpg).
    - destruct (reachable_documents_dense Hw) as [-> _].
      apply Finite.Injective_map_NoDup; [|apply seq_NoDup].
      intros a b. apply Nat2Z.inj. }
  rewrite <- (firstn_skipn 3 ids) in Hnd. now apply NoDup_app_remove_r in Hnd.
Qed.

Lemma search_document_hits_distinct_witness :
  NoDup (map (@hit_id _) hits_animals).
Proof.
  apply (@search_document_hits_distinct pg_keeping_ties embed_codes
           (mkSearchQuery "cat") world_four hits_animals).
  - exact pg_keeping_ties_lawful.
  - apply after_adding_reachable.
  - vm_compute. reflexivity.
Defined.




Lemma search_document_by_documents :
  forall pg embed_query payload w1 w2,
    documents (db w1) = documents (db w2) ->
    fst (search_document pg embed_query payload w1)
    = fst (search_document pg embed_query payload w2).
Proof.
  intros pg embed_query payload w1 w2 Hdocs.
  destruct (embed_query (query payload)) as [v|] eqn:E.
  - assert (Hsame : query_refused (db w1) v = query_refused (db w2) v)
      by (unfold query_refused; now rewrite Hdocs).
    destruct (query_refused (db w2) v) eqn:Hr.
    + now rewrite (@search_document_refused pg embed_query payload w1 v E Hsame),
        (@search_document_refused pg embed_query payload w2 v E Hr).
    + rewrite (@search_document_ran pg embed_query payload w1 v E Hsame),
        (@search_document_ran pg embed_query payload w2 v E Hr); simpl.
      now rewrite Hdocs.
  - now rewrite (search_document_unavailable pg _ _ w1 E),
      (search_document_unavailable pg _ _ w2 E).
Qed.

(** X17. Traffic on [/items] never changes what a search returns: after
    any items request, served with whatever collaborators and however it
    ended, a search gives the result it would have given before. *)
Theorem search_unaffected_by_items :
  forall pg pg' embed_query embed_query' r payload w,
    is_items_request r = true ->
    fst (search_document pg embed_query payload (serve pg' embed_query' r w))
    = fst (search_document pg embed_query payload w).
Proof.
  intros pg pg' embed_query embed_query' r payload w Hr.
  apply search_document_by_documents.
  pose proof (serve_keeps_to_table pg' embed_query' r w) as H.
  destruct r; try discriminate Hr; apply H.
Qed.

Lemma search_unaffected_by_items_witness :
  fst (search_document pg_keeping_ties embed_codes (mkSearchQuery "cat")
         (serve pg_reversing_ties embed_short (PostItems (mkItemCreate "ink" "black"))
                world_animals))
  = fst (search_document pg_keeping_ties embed_codes (mkSearchQuery "cat") world_animals).
Proof.
  apply (@search_unaffected_by_items pg_keeping_ties pg_reversing_ties embed_codes
           embed_short (PostItems (mkItemCreate "ink" "black")) (mkSearchQuery "cat")
           world_animals).
  reflexivity.
Defined.

Lemma take_length :
  forall n s, (String.length (take n s) <= n)%nat.
Proof.
  induction n as [|n IH]; intros s; simpl.
  - lia.
  - destruct s as [|c s]; simpl; [lia|]. specialize (IH s). lia.
Qed.

Lemma bind_varchar_fits :
  forall n s s', bind_varchar n s = inr s' -> (String.length s' <= n)%nat.
Proof.
  intros n s s'. unfold bind_varchar.
  destruct (Nat.leb (String.length s) n) eqn:E.
  - intros H. injection H as <-. now apply Nat.leb_le.
  - destruct (all_spaces (drop n s)); [|discriminate].
    intros H. injection H as <-. apply take_length.
Qed.

Lemma reachable_items_complete :
  forall w, reachable w -> Forall (fun it => item_complete it = true) (items (db w)).
Proof.
  induction 1 as [|pg embed_query r w Hw IH].
  - constructor.
  - destruct r as [item| |wanted|doc|payload].
    + simpl.
      destruct (item_refusal (db w) (name item) (description item)) as [e|] eqn:E.
      * now rewrite (@create_item_refused item w e E).
      * destruct (@create_item_stored item w E) as [nm [it [Hnm [-> _]]]]; simpl.
        apply Forall_app. split; [exact IH|].
        constructor; [|constructor]. unfold item_complete; simpl.
        apply Nat.leb_le. now apply (bind_varchar_fits _ _ Hnm).
    + exact IH.
    + simpl. destruct (find_item wanted (db w)) as [it|] eqn:E.
      * rewrite (delete_item_found _ w E); simpl.
        rewrite Forall_forall in *. intros x Hx. apply filter_In in Hx.
        apply IH. apply Hx.
      * now rewrite (delete_item_missing _ w E).
    + destruct (serve_keeps_to_table pg embed_query (PostVectorAdd doc) w)
        as [-> _]. exact IH.
    + destruct (serve_keeps_to_table pg embed_query (PostVectorSearch payload) w)
        as [-> _]. exact IH.
Qed.

(** X18. Items are complete: in every state the service can reach, every
    stored item has a name and a description, and its name has at most 100
    characters. *)
Theorem items_always_complete :
  forall w,
    reachable w ->
    forall it, In it (items (db w)) ->
      exists nm descr,
        item_name it = Some nm /\ item_description it = Some descr
        /\ (String.length nm <= NAME_MAX)%nat.
Proof.
  intros w Hw it Hin.
  pose proof (reachable_items_complete Hw) as Hc.
  rewrite Forall_forall in Hc. specialize (Hc it Hin). unfold item_complete in Hc.
  destruct (item_name it) as [nm|]; [|discriminate].
  destruct (item_description it) as [descr|]; [|discriminate].
  exists nm, descr. repeat split. now apply Nat.leb_le.
Qed.

Lemma items_always_complete_witness :
  items (db world_one_item) <> []
  /\ forall it, In it (items (db world_one_item)) ->
      exists nm descr,
        item_name it = Some nm /\ item_description it = Some descr
        /\ (String.length nm <= NAME_MAX)%nat.
Proof.
  split.
  - vm_compute. discriminate.
  - apply (@items_always_complete world_one_item). exact reachable_one_item.
Defined.
